(** * Natural-language-to-SQL assistant: the sanitizer pipeline and its glue

    A shallow embedding of [app.py] and [schema.py].

    Text.  A Python [str] is modelled as a list of characters whose code
    points are below 256 (the Latin-1 block of Unicode); a character is an
    [ascii] read as its code point.  On that block the Unicode predicates
    used by [str.strip], [str.lower], [str.splitlines] and by the [re]
    classes [\s], [\w], [\b] are the finite tables written out below, and
    IGNORECASE matching of an ASCII letter is comparison after lowering.
    Strings with code points from 256 on are outside the model.

    Regular expressions.  The three patterns of [app.py] are kept as syntax
    trees and run by a small backtracking matcher with Python's priorities
    (greedy repetition, ordered alternation, leftmost match), so that
    [re.sub] is the same function for all three.

    Effects.  Calls to the generation service and to the warehouse append
    to a trace; a computation returns a value or raises. *)

From Stdlib Require Import Ascii String List ZArith NArith QArith Bool Lia.
From stdpp Require Import base option list gmap countable strings pretty.
Import ListNotations.

Local Open Scope list_scope.

(** ** Characters and text *)

Definition str : Type := list ascii.

Definition txt (s : string) : str := list_ascii_of_string s.

Definition code (c : ascii) : N := N_of_ascii c.

Definition between (lo hi : N) (c : ascii) : bool :=
  ((lo <=? code c) && (code c <=? hi))%N.

(** [Py_UNICODE_ISSPACE] below 256: used by [str.strip] and by [\s]. *)
Definition is_space (c : ascii) : bool :=
  between 9 13 c || between 28 32 c || (code c =? 133)%N || (code c =? 160)%N.

(** [Py_UNICODE_ISALNUM] below 256. *)
Definition is_alnum (c : ascii) : bool :=
  between 48 57 c || between 65 90 c || between 97 122 c
  || (code c =? 170)%N || between 178 179 c || (code c =? 181)%N
  || between 185 186 c || between 188 190 c
  || between 192 214 c || between 216 246 c || between 248 255 c.

(** The class [\w]. *)
Definition is_word (c : ascii) : bool := is_alnum c || (code c =? 95)%N.

(** The class [[a-zA-Z_]]. *)
Definition is_ident_start (c : ascii) : bool :=
  between 65 90 c || between 97 122 c || (code c =? 95)%N.

(** The line boundaries of [str.splitlines] below 256. *)
Definition is_linebreak (c : ascii) : bool :=
  between 10 13 c || between 28 30 c || (code c =? 133)%N.

(** [str.lower] on one character. *)
Definition lower_char (c : ascii) : ascii :=
  if between 65 90 c || between 192 214 c || between 216 222 c
  then ascii_of_N (code c + 32) else c.

Definition lower (s : str) : str := map lower_char s.

Definition LF : ascii := ascii_of_N 10.
Definition CR : ascii := ascii_of_N 13.

Definition ascii_eqb (a b : ascii) : bool := Ascii.eqb a b.

(** [s.startswith(p)] *)
Fixpoint startswith (p s : str) : bool :=
  match p, s with
  | [], _ => true
  | _ :: _, [] => false
  | a :: p', b :: s' => ascii_eqb a b && startswith p' s'
  end.

(** [needle in s] for a non-empty needle. *)
Fixpoint contains (needle s : str) : bool :=
  startswith needle s ||
  match s with
  | [] => false
  | _ :: s' => contains needle s'
  end.

(** [s.lstrip()], [s.rstrip()], [s.strip()] *)
Fixpoint lstrip (s : str) : str :=
  match s with
  | c :: s' => if is_space c then lstrip s' else s
  | [] => []
  end.

Definition rstrip (s : str) : str := rev (lstrip (rev s)).

Definition strip (s : str) : str := rstrip (lstrip s).

(** [s.splitlines()]: a line ends at a line boundary, [\r\n] counts as one
    boundary, and no empty line is produced after the last boundary.
    [pending] is the line being read ([None] right after a boundary or at
    the start); [after_cr] says that the previous character was [\r]. *)
Fixpoint splitlines_from (after_cr : bool) (pending : option str) (s : str)
  : list str :=
  match s with
  | [] => match pending with None => [] | Some l => [rev l] end
  | c :: s' =>
      if after_cr && ascii_eqb c LF then splitlines_from false None s'
      else if is_linebreak c
      then rev (default [] pending) :: splitlines_from (ascii_eqb c CR) None s'
      else splitlines_from false (Some (c :: default [] pending)) s'
  end.

Definition splitlines (s : str) : list str := splitlines_from false None s.

(** [sep.join(parts)] *)
Fixpoint join (sep : str) (parts : list str) : str :=
  match parts with
  | [] => []
  | [p] => p
  | p :: rest => p ++ sep ++ join sep rest
  end.

(** [s.replace(old, new)] for a non-empty [old]: occurrences are taken from
    the left and do not overlap.  [skip] counts the characters of the
    occurrence just replaced that are still to be dropped. *)
Fixpoint replace_from (old new : str) (skip : nat) (s : str) : str :=
  match s with
  | [] => []
  | c :: s' =>
      match skip with
      | S n => replace_from old new n s'
      | O =>
          if startswith old s
          then new ++ replace_from old new (length old - 1) s'
          else c :: replace_from old new 0 s'
      end
  end.

Definition replace (old new s : str) : str := replace_from old new 0 s.

(** ** The regular expressions of [app.py] *)

Inductive cls : Type :=
| ClsSpace        (* \s *)
| ClsWord         (* \w *)
| ClsIdentStart.  (* [a-zA-Z_] *)

Definition in_cls (k : cls) (c : ascii) : bool :=
  match k with
  | ClsSpace => is_space c
  | ClsWord => is_word c
  | ClsIdentStart => is_ident_start c
  end.

(** The fragment of the pattern language that the source uses; repetition
    is applied to character classes only. *)
Inductive regex : Type :=
| RLit (c : ascii)
| RCls (k : cls)
| RStar (k : cls)
| RPlus (k : cls)
| RSeq (r1 r2 : regex)
| RAlt (r1 r2 : regex)
| RGroup (n : nat) (r : regex)
| RWordB           (* \b *)
| REnd.            (* $ without MULTILINE *)

Fixpoint RLits (s : str) : regex :=
  match s with
  | [] => RStar ClsSpace (* not used: literals below are non-empty *)
  | [c] => RLit c
  | c :: s' => RSeq (RLit c) (RLits s')
  end.

Definition groups : Type := list (nat * str).

Fixpoint group (n : nat) (g : groups) : str :=
  match g with
  | [] => []
  | (m, s) :: g' => if Nat.eqb n m then s else group n g'
  end.

Definition lit_matches (ignorecase : bool) (c x : ascii) : bool :=
  if ignorecase then ascii_eqb (lower_char c) (lower_char x) else ascii_eqb c x.

Definition is_word_opt (o : option ascii) : bool :=
  match o with Some c => is_word c | None => false end.

Definition mresult : Type := (str * groups)%type.

(** Greedy repetition of a class: take one more character first, fall back
    to the continuation on failure. *)
Fixpoint star_loop (k : cls) (prev : option ascii) (s : str)
    (cont : option ascii -> str -> option mresult) : option mresult :=
  match s with
  | x :: s' =>
      if in_cls k x
      then match star_loop k (Some x) s' cont with
           | Some res => Some res
           | None => cont prev s
           end
      else cont prev s
  | [] => cont prev s
  end.

(** The backtracking matcher, in continuation-passing style.  [prev] is the
    character before the current position, [s] the text from it on. *)
Fixpoint rmatch (ignorecase : bool) (r : regex) (prev : option ascii) (s : str)
    (g : groups) (cont : option ascii -> str -> groups -> option mresult)
  : option mresult :=
  match r with
  | RLit c =>
      match s with
      | x :: s' => if lit_matches ignorecase c x then cont (Some x) s' g else None
      | [] => None
      end
  | RCls k =>
      match s with
      | x :: s' => if in_cls k x then cont (Some x) s' g else None
      | [] => None
      end
  | RStar k => star_loop k prev s (fun p s' => cont p s' g)
  | RPlus k =>
      match s with
      | x :: s' =>
          if in_cls k x then star_loop k (Some x) s' (fun p s' => cont p s' g)
          else None
      | [] => None
      end
  | RSeq r1 r2 =>
      rmatch ignorecase r1 prev s g (fun p s' g' => rmatch ignorecase r2 p s' g' cont)
  | RAlt r1 r2 =>
      match rmatch ignorecase r1 prev s g cont with
      | Some res => Some res
      | None => rmatch ignorecase r2 prev s g cont
      end
  | RGroup n r1 =>
      rmatch ignorecase r1 prev s g
        (fun p s' g' => cont p s' ((n, take (length s - length s') s) :: g'))
  | RWordB =>
      if xorb (is_word_opt prev) (is_word_opt (head s)) then cont prev s g else None
  | REnd =>
      match s with
      | [] => cont prev s g
      | [x] => if ascii_eqb x LF then cont prev s g else None
      | _ => None
      end
  end.

(** A match starting exactly at the current position: its length and its
    groups. *)
Definition match_here (ignorecase : bool) (r : regex) (prev : option ascii)
    (s : str) : option (nat * groups) :=
  match rmatch ignorecase r prev s [] (fun _ s' g => Some (s', g)) with
  | Some (s', g) => Some (length s - length s', g)
  | None => None
  end.

(** [re.sub(pattern, repl, s)] with a function [repl] of the whole match and
    its groups.  The patterns of this file never match the empty string
    (see [match_here_nil] below), so the empty-match rule of [re.sub] is not
    modelled. *)
Fixpoint sub_from (ignorecase : bool) (r : regex) (repl : str -> groups -> str)
    (skip : nat) (prev : option ascii) (s : str) : str :=
  match s with
  | [] => []
  | x :: s' =>
      match skip with
      | S n => sub_from ignorecase r repl n (Some x) s'
      | O =>
          match match_here ignorecase r prev s with
          | Some (S n, g) =>
              repl (take (S n) s) g ++ sub_from ignorecase r repl n (Some x) s'
          | _ => x :: sub_from ignorecase r repl 0 (Some x) s'
          end
      end
  end.

Definition re_sub (ignorecase : bool) (r : regex) (repl : str -> groups -> str)
    (s : str) : str :=
  sub_from ignorecase r repl 0 None s.

(** The pattern of [qualify_table_names]: a word boundary, group 1 [FROM]
    or [JOIN], one or more [\s], group 2 an identifier ([[a-zA-Z_]] followed
    by any number of [\w]); compiled with IGNORECASE. *)
Definition from_join_re : regex :=
  RSeq RWordB
    (RSeq (RGroup 1 (RAlt (RLits (txt "FROM")) (RLits (txt "JOIN"))))
       (RSeq (RPlus ClsSpace)
          (RGroup 2 (RSeq (RCls ClsIdentStart) (RStar ClsWord))))).

(** The opening fence: three backticks, [sql], any number of [\s];
    compiled with IGNORECASE. *)
Definition fence_open_re : regex :=
  RSeq (RLits (txt "```sql")) (RStar ClsSpace).

(** The closing fence: any number of [\s], three backticks, end of text
    (the dollar anchor also matches before one final newline). *)
Definition fence_close_re : regex :=
  RSeq (RStar ClsSpace) (RSeq (RLits (txt "```")) REnd).

(** ** [qualify_table_names] *)

Definition qualify_repl (db_name : str) (whole : str) (g : groups) : str :=
  let table := group 2 g in
  if contains (txt ".") table then whole
  else group 1 g ++ txt " " ++ db_name ++ txt "." ++ table.

Definition qualify_table_names (sql_text db_name : str) : str :=
  re_sub true from_join_re (qualify_repl db_name) sql_text.


(** ** The text steps of [generate_sql] (source lines 103 to 116) *)

Definition erase (whole : str) (g : groups) : str := [].

(** Lines 103 and 104: the two [re.sub] calls that remove code fences. *)
Definition strip_fences (sql_text : str) : str :=
  let sql_text := re_sub true fence_open_re erase sql_text in
  re_sub false fence_close_re erase sql_text.

Definition leading_keywords : list str :=
  [txt "select"; txt "show"; txt "with"; txt "describe"; txt "explain"; txt "use"].

(** [line.strip().lower().startswith((...))] *)
Definition starts_statement (line : str) : bool :=
  existsb (fun kw => startswith kw (lower (strip line))) leading_keywords.

(** The loop of lines 107 to 110 over [enumerate(lines)]: [i] is the index of
    the head of [todo] in [lines]; the loop leaves [sql_text] as it is when
    it runs to the end. *)
Fixpoint scan_lines (lines : list str) (i : nat) (todo : list str)
    (sql_text : str) : str :=
  match todo with
  | [] => sql_text
  | line :: todo' =>
      if starts_statement line
      then join [LF] (drop i lines)
      else scan_lines lines (S i) todo' sql_text
  end.

Definition detect_boundary (sql_text : str) : str :=
  let lines := splitlines (strip sql_text) in
  scan_lines lines 0 lines sql_text.

(** Line 112. *)
Definition substitute_placeholder (sql_text db_name : str) : str :=
  replace (txt "'your_database_name'") (txt "'" ++ db_name ++ txt "'") sql_text.

(** The text that reaches the check of line 115. *)
Definition prepare (raw db_name : str) : str :=
  let sql_text := strip_fences raw in
  let sql_text := detect_boundary sql_text in
  let sql_text := substitute_placeholder sql_text db_name in
  qualify_table_names sql_text db_name.

Definition mentions_information_schema (sql_text : str) : bool :=
  contains (txt "information_schema") (lower sql_text).


(** ** Values: JSON documents, warehouse cells, the schema cache *)

(** What [json.load] returns for the snapshot file.  Numbers are integers;
    an object is its list of members, each key once. *)
#[warnings="-register-all"]
Inductive json : Type :=
| JNull
| JBool (b : bool)
| JInt (z : Z)
| JStr (s : str)
| JArr (items : list json)
| JObj (members : list (str * json)).

(** [obj[k]] on a [dict] with string keys. *)
Fixpoint member (k : str) (members : list (str * json)) : option json :=
  match members with
  | [] => None
  | (k', v) :: rest => if decide (k = k') then Some v else member k rest
  end.

(** Keys of the Python dictionaries built from a snapshot: the hashable
    JSON values.  [True] and [False] are the keys [1] and [0]. *)
Inductive key : Type :=
| KNone
| KInt (z : Z)
| KStr (s : str).

Global Instance key_eq_dec : EqDecision key.
Proof. solve_decision. Defined.

Global Instance key_countable : Countable key.
Proof.
  refine (inj_countable'
    (fun k => match k with
              | KNone => inl ()
              | KInt z => inr (inl z)
              | KStr s => inr (inr s)
              end)
    (fun x => match x with
              | inl _ => KNone
              | inr (inl z) => KInt z
              | inr (inr s) => KStr s
              end) _).
  intros []; reflexivity.
Defined.

(** The value stored for a table or view: the dictionary with the one key
    [columns]. *)
Record table_schema : Type := { columns : gmap key json }.

Abbreviation db_schema := (gmap key table_schema).
Abbreviation cache := (gmap key db_schema).

(** A value in a result row of the warehouse connector. *)
Inductive cell : Type :=
| CNone
| CBool (b : bool)
| CInt (z : Z)
| CStr (s : str)
| CDecimal (rendered : str) (nonzero : bool)
| COther (rendered : str) (is_truthy : bool).

Definition row : Type := list cell.

(** ** Exceptions and computations *)

Inductive exn_class : Type :=
| ValueError
| PlainException        (* raise Exception(...) *)
| IndexError
| KeyError
| TypeError
| AttributeError
| OSError
| JSONDecodeError
| CalledProcessError
| LibraryError          (* raised inside requests or the connector *)
| SystemExit.           (* sys.exit in the helper script *)

Global Instance exn_class_eq_dec : EqDecision exn_class.
Proof. solve_decision. Defined.

(** An exception: its class and [str(e)].  Every class above but
    [SystemExit], which only the helper script raises, derives from
    [Exception]; [KeyboardInterrupt] is not modelled. *)
Record exn : Type := { exn_class_of : exn_class; exn_msg : str }.

Inductive outcome (A : Type) : Type :=
| Val (a : A)
| Exn (e : exn).
Arguments Val {A} a.
Arguments Exn {A} e.

(** ** The outside world *)

Definition loc : Type := nat.

(** A file as [open] and [json.load] see it. *)
Inductive file : Type :=
| NoFile               (* open raises OSError *)
| Garbage              (* json.load raises JSONDecodeError *)
| Doc (j : json).

(** A cell of the data sent to the generation service for the insight:
    [float(cell)] for a [Decimal], the cell itself otherwise. *)
Inductive formatted_cell : Type :=
| FFloat (of_decimal : str)
| FCell (c : cell).

(** The content of a message.  The instruction text of [generate_sql] is a
    pure rendering of the database name and of its schema; the message
    carries these two in place of the rendered text. *)
Inductive content : Type :=
| SqlInstruction (db_name : str) (schema : db_schema)
| Text (t : str)
| Data (records : list (list (str * formatted_cell))).

Inductive role : Type := System | User.

Record gen_request : Type := {
  gr_model : str;
  gr_temperature : Q;
  gr_max_tokens : nat;
  gr_messages : list (role * content)
}.

(** The reply of [requests.post]: [json_content] stands for
    [res.json()["choices"][0]["message"]["content"]]. *)
Record http_response : Type := {
  status_code : nat;
  text : str;
  json_content : outcome str
}.

Inductive event : Type :=
| EvPost (payload : gen_request)
| EvConnect
| EvCursor
| EvExecute (statement : str)
| EvFetchAll
| EvDescription
| EvCursorClose
| EvConnectionClose.

Definition is_warehouse_event (e : event) : bool :=
  match e with EvPost _ => false | _ => true end.

Definition is_post (e : event) : bool :=
  match e with EvPost _ => true | _ => false end.

(** The collaborators.  Each answer may depend on the calls made so far. *)
Record env : Type := {
  requests_post : list event -> gen_request -> outcome http_response;
  sql_connect : list event -> outcome unit;
  connection_cursor : list event -> outcome unit;
  cursor_execute : list event -> str -> outcome unit;
  cursor_fetchall : list event -> outcome (list row);
  cursor_description : list event -> option (list str);
  cursor_close : list event -> outcome unit;
  connection_close : list event -> outcome unit;
  (** [sqlparse.parse(s)], each statement given by its [str]. *)
  sqlparse_parse : str -> list str;
  (** Whether [open(path, "w")] succeeds. *)
  writable : loc -> bool;
  (** The two paths of the snapshot: next to [app.py], and relative to the
      working directory. *)
  app_schema_path : loc;
  cwd_schema_path : loc;
  (** [databases.json], relative to the working directory. *)
  databases_path : loc;
  (** The path of [schema.py] given to the subprocess. *)
  schema_script : str
}.

Record world : Type := {
  schemas : cache;
  files : loc -> file;
  trace : list event
}.

Definition M (A : Type) : Type := world -> outcome A * world.

Definition ret {A} (a : A) : M A := fun w => (Val a, w).

Definition raise {A} (c : exn_class) (msg : str) : M A :=
  fun w => (Exn {| exn_class_of := c; exn_msg := msg |}, w).

Definition bind {A B} (m : M A) (f : A -> M B) : M B :=
  fun w => match m w with
           | (Val a, w') => f a w'
           | (Exn e, w') => (Exn e, w')
           end.

Notation "'do' x <- m ; k" := (bind m (fun x => k))
  (at level 60, x pattern, m at next level, right associativity).
Notation "'run' m ; k" := (bind m (fun _ => k))
  (at level 60, m at next level, right associativity).

(** [try: body finally: cleanup]: the cleanup runs on both exits of the
    body; an exception of the cleanup replaces the outcome of the body. *)
Definition try_finally {A} (body : M A) (cleanup : M unit) : M A :=
  fun w => let (r, w1) := body w in
           match cleanup w1 with
           | (Val _, w2) => (r, w2)
           | (Exn e, w2) => (Exn e, w2)
           end.

(** [try: body except C as e: handler(e)] for the classes accepted by
    [catches]. *)
Definition try_except {A} (body : M A) (catches : exn_class -> bool)
    (handler : exn -> M A) : M A :=
  fun w => match body w with
           | (Val a, w') => (Val a, w')
           | (Exn e, w') =>
               if catches (exn_class_of e) then handler e w' else (Exn e, w')
           end.

Definition lift {A} (o : outcome A) : M A := fun w => (o, w).

(** A call to a collaborator: logged, answered from the history. *)
Definition call {A} (ev : event) (answer : list event -> outcome A) : M A :=
  fun w => (answer (trace w),
            {| schemas := schemas w; files := files w;
               trace := trace w ++ [ev] |}).

Definition truthy_str (s : option str) : bool :=
  match s with Some (_ :: _) => true | _ => false end.

(** ** Python operations on loaded JSON values *)

Definition oraise {A} (c : exn_class) (msg : str) : outcome A :=
  Exn {| exn_class_of := c; exn_msg := msg |}.

Definition obind {A B} (o : outcome A) (f : A -> outcome B) : outcome B :=
  match o with Val a => f a | Exn e => Exn e end.

Notation "'let?' x := o 'in' k" := (obind o (fun x => k))
  (at level 60, x pattern, o at next level, right associativity).

(** [v[k]] for a string [k]. *)
Definition subscript (v : json) (k : str) : outcome json :=
  match v with
  | JObj members =>
      match member k members with
      | Some x => Val x
      | None => oraise KeyError (txt "'" ++ k ++ txt "'")
      end
  | _ => oraise TypeError (txt "indices must be integers")
  end.

(** [v.get(k, [])] *)
Definition get_or_empty (v : json) (k : str) : outcome json :=
  match v with
  | JObj members => Val (default (JArr []) (member k members))
  | _ => oraise AttributeError (txt "object has no attribute 'get'")
  end.

(** [for x in v] *)
Definition iterate (v : json) : outcome (list json) :=
  match v with
  | JArr items => Val items
  | JObj members => Val (map (fun kv => JStr (fst kv)) members)
  | JStr s => Val (map (fun c => JStr [c]) s)
  | _ => oraise TypeError (txt "object is not iterable")
  end.

(** Use of a value as a dictionary key. *)
Definition hashable (v : json) : outcome key :=
  match v with
  | JNull => Val KNone
  | JBool b => Val (KInt (if b then 1 else 0))
  | JInt z => Val (KInt z)
  | JStr s => Val (KStr s)
  | _ => oraise TypeError (txt "unhashable type")
  end.

(** A dictionary comprehension [{k(x): v(x) for x in items}]: entries are
    stored in order, a later one replaces an earlier one with the same key. *)
Fixpoint dict_comp {A} (entry : json -> outcome (key * A)) (items : list json)
    (acc : gmap key A) : outcome (gmap key A) :=
  match items with
  | [] => Val acc
  | x :: rest =>
      match entry x with
      | Val (k, v) => dict_comp entry rest (<[k := v]> acc)
      | Exn e => Exn e
      end
  end.

(** [{col["column_name"]: col["type"] for col in entity["columns"]}] *)
Definition columns_of (entity : json) : outcome (gmap key json) :=
  let? cols := subscript entity (txt "columns") in
  let? items := iterate cols in
  dict_comp (fun col =>
               let? name := subscript col (txt "column_name") in
               let? ty := subscript col (txt "type") in
               let? k := hashable name in
               Val (k, ty)) items ∅.

(** [{e["name"]: {"columns": ...} for e in entities}] *)
Definition entities_of (entities : json) : outcome (gmap key table_schema) :=
  let? items := iterate entities in
  dict_comp (fun e =>
               let? name := subscript e (txt "name") in
               let? cols := columns_of e in
               let? k := hashable name in
               Val (k, {| columns := cols |})) items ∅.

(** The comprehension of [load_current_schema], lines 37 to 50.  In
    [{**tables, **views}] a view replaces a table of the same name. *)
Definition build_cache (raw : json) : outcome cache :=
  let? items := iterate raw in
  dict_comp (fun d =>
               let? name := subscript d (txt "database") in
               let? tables := get_or_empty d (txt "tables") in
               let? tables := entities_of tables in
               let? views := get_or_empty d (txt "views") in
               let? views := entities_of views in
               let? k := hashable name in
               Val (k, views ∪ tables)) items ∅.

(** ** [app.py] *)

Section App.

Variable E : env.

Definition read_json (p : loc) : M json :=
  fun w => match files w p with
           | NoFile => (oraise OSError (txt "No such file or directory"), w)
           | Garbage => (oraise JSONDecodeError (txt "Expecting value"), w)
           | Doc j => (Val j, w)
           end.

(** [with open(p, "w") as f: json.dump(j, f)] *)
Definition write_json (p : loc) (j : json) : M unit :=
  fun w => if writable E p
           then (Val tt,
                 {| schemas := schemas w;
                    files := fun q => if decide (q = p) then Doc j else files w q;
                    trace := trace w |})
           else (oraise OSError (txt "Permission denied"), w).

(** [except Exception] *)
Definition any_exception (c : exn_class) : bool :=
  negb (bool_decide (c = SystemExit)).

(** [get_database_list]: a bare [except]. *)
Definition get_database_list : M json :=
  try_except (read_json (databases_path E)) (fun _ => true)
    (fun e => ret (JArr [])).

(** [load_current_schema] *)
Definition load_current_schema : M cache :=
  try_except
    (do raw <- read_json (cwd_schema_path E);
     lift (build_cache raw))
    any_exception
    (fun e => ret ∅).

Definition model_name : str := txt "llama-3.3-70b-versatile".

Definition restricted_message : str :=
  txt "Queries to `information_schema` are not supported in Databricks.".

(** Lines 103 to 118 of [generate_sql]: from the text of the reply to the
    statement that is returned. *)
Definition sanitize (raw db_name : str) : outcome str :=
  let sql_text := prepare raw db_name in
  if mentions_information_schema sql_text
  then oraise ValueError restricted_message
  else match sqlparse_parse E (strip sql_text) with
       | first :: _ => Val first
       | [] => oraise IndexError (txt "tuple index out of range")
       end.

Definition sql_payload (prompt : str) (schema : db_schema) (db_name : str)
  : gen_request :=
  {| gr_model := model_name;
     gr_temperature := 0;
     gr_max_tokens := 200;
     gr_messages := [(System, SqlInstruction db_name schema);
                     (User, Text (strip prompt))] |}.

Definition status_text (n : nat) : str := txt (pretty n).

(** [generate_sql] *)
Definition generate_sql (prompt : str) (schema : db_schema) (db_name : str)
  : M str :=
  do res <- call (EvPost (sql_payload prompt schema db_name))
              (fun h => requests_post E h (sql_payload prompt schema db_name));
  if Nat.eqb (status_code res) 200
  then do sql_text <- lift (json_content res);
       lift (sanitize sql_text db_name)
  else raise PlainException
         (txt "GROQ error: " ++ status_text (status_code res) ++ txt " - " ++ text res).

(** [query_databricks] *)
Definition query_databricks (sql_query : str) (db_name : option str)
  : M (list row * list str) :=
  run call EvConnect (sql_connect E);
  run call EvCursor (connection_cursor E);
  try_finally
    (run (match db_name with
          | Some (c :: d) =>
              call (EvExecute (txt "USE `" ++ (c :: d) ++ txt "`"))
                (fun h => cursor_execute E h (txt "USE `" ++ (c :: d) ++ txt "`"))
          | _ => ret tt
          end);
     run call (EvExecute sql_query) (fun h => cursor_execute E h sql_query);
     do rows <- call EvFetchAll (cursor_fetchall E);
     do columns <- call EvDescription
                     (fun h => match cursor_description E h with
                               | Some names => Val names
                               | None => oraise TypeError
                                           (txt "'NoneType' object is not iterable")
                               end);
     ret (rows, columns))
    (run call EvCursorClose (cursor_close E);
     call EvConnectionClose (connection_close E)).

(** [d[k] = v] on a dictionary kept as its list of items. *)
Fixpoint dict_set {V} (k : str) (v : V) (d : list (str * V)) : list (str * V) :=
  match d with
  | [] => [(k, v)]
  | (k', v') :: rest =>
      if decide (k = k') then (k, v) :: rest else (k', v') :: dict_set k v rest
  end.

Definition format_cell (c : cell) : formatted_cell :=
  match c with
  | CDecimal rendered _ => FFloat rendered
  | _ => FCell c
  end.

(** [{columns[i]: ... for i, cell in enumerate(row)}] *)
Fixpoint format_row (columns : list str) (i : nat) (r : row)
    (acc : list (str * formatted_cell)) : outcome (list (str * formatted_cell)) :=
  match r with
  | [] => Val acc
  | c :: rest =>
      match columns !! i with
      | Some name => format_row columns (S i) rest (dict_set name (format_cell c) acc)
      | None => oraise IndexError (txt "list index out of range")
      end
  end.

Fixpoint format_rows (columns : list str) (rows : list row)
  : outcome (list (list (str * formatted_cell))) :=
  match rows with
  | [] => Val []
  | r :: rest =>
      let? d := format_row columns 0 r [] in
      let? ds := format_rows columns rest in
      Val (d :: ds)
  end.

(** Whether [json.dumps] accepts the value. *)
Definition serializable (f : formatted_cell) : bool :=
  match f with
  | FCell (COther _ _) => false
  | FCell (CDecimal _ _) => false
  | _ => true
  end.

Definition insight_payload (formatted : list (list (str * formatted_cell)))
    (prompt : str) : gen_request :=
  {| gr_model := model_name;
     gr_temperature := 3 # 10;
     gr_max_tokens := 300;
     gr_messages :=
       [(System, Text (txt "You're a data analyst. Provide concise insights."));
        (User, Text (txt "User question: " ++ prompt));
        (User, Data formatted)] |}.

(** [generate_insight] *)
Definition generate_insight (rows : list row) (columns : list str) (prompt : str)
  : M str :=
  do formatted <- lift (format_rows columns rows);
  if forallb (forallb (fun kv => serializable (snd kv))) formatted
  then
    do res <- call (EvPost (insight_payload formatted prompt))
                (fun h => requests_post E h (insight_payload formatted prompt));
    if Nat.eqb (status_code res) 200
    then lift (json_content res)
    else raise PlainException
           (txt "GROQ Insight error: " ++ status_text (status_code res)
              ++ txt " - " ++ text res)
  else raise TypeError (txt "Object is not JSON serializable").

(** The body of a request: the two fields the routes read. *)
Record request : Type := {
  req_prompt : option str;
  req_database : option str
}.

Inductive response : Type :=
| AnalyzeOk (sql : str) (columns : list str) (rows : list row) (insight : str)
| StatusOk (status : str)
| ErrorResponse (http_status : nat) (error : str).

Definition no_data_message : str := txt "No data found for this query.".

(** [analyze] *)
Definition analyze (req : request) : M response :=
  try_except
    (match req_prompt req, req_database req with
     | Some (p :: prompt'), Some (c :: db') =>
         let prompt := p :: prompt' in
         let db_name := c :: db' in
         fun w =>
           match schemas w !! KStr db_name with
           | None =>
               ret (ErrorResponse 400 (txt "Unknown database: " ++ db_name)) w
           | Some schema =>
               (do sql_query <- generate_sql prompt schema db_name;
                do rc <- query_databricks sql_query (Some db_name);
                do insight <- match fst rc with
                              | _ :: _ => generate_insight (fst rc) (snd rc) prompt
                              | [] => ret no_data_message
                              end;
                ret (AnalyzeOk sql_query (snd rc) (fst rc) insight)) w
           end
     | _, _ => ret (ErrorResponse 400 (txt "Missing prompt or database"))
     end)
    any_exception
    (fun e => ret (ErrorResponse 500 (exn_msg e))).

End App.

(** ** [schema.py] *)

(** How an f-string renders a cell. *)
Definition py_format (c : cell) : str :=
  match c with
  | CNone => txt "None"
  | CBool b => if b then txt "True" else txt "False"
  | CInt z => txt (pretty z)
  | CStr s => s
  | CDecimal rendered _ => rendered
  | COther rendered _ => rendered
  end.

Definition cell_truthy (c : cell) : bool :=
  match c with
  | CNone => false
  | CBool b => b
  | CInt z => negb (z =? 0)%Z
  | CStr s => match s with [] => false | _ => true end
  | CDecimal _ nonzero => nonzero
  | COther _ t => t
  end.

(** What [json.dump] writes for a cell. *)
Definition cell_json (c : cell) : outcome json :=
  match c with
  | CNone => Val JNull
  | CBool b => Val (JBool b)
  | CInt z => Val (JInt z)
  | CStr s => Val (JStr s)
  | _ => oraise TypeError (txt "Object is not JSON serializable")
  end.

(** [r[i]] *)
Definition index (r : row) (i : nat) : outcome cell :=
  match r !! i with
  | Some c => Val c
  | None => oraise IndexError (txt "tuple index out of range")
  end.

(** The filter and the element of the comprehension in [describe_entity]:
    [None] when the row is dropped. *)
Definition describe_row (r : row) : outcome (option (cell * cell)) :=
  let? c0 := index r 0 in
  if cell_truthy c0 then
    let? c1 := index r 1 in
    if cell_truthy c1 then
      match c0 with
      | CStr s =>
          if bool_decide (lower s = txt "col_name") then Val None
          else Val (Some (c0, c1))
      | _ => oraise AttributeError (txt "object has no attribute 'lower'")
      end
    else Val None
  else Val None.

Fixpoint describe_rows (rows : list row) : outcome (list (cell * cell)) :=
  match rows with
  | [] => Val []
  | r :: rest =>
      let? x := describe_row r in
      let? xs := describe_rows rest in
      Val (match x with Some cc => cc :: xs | None => xs end)
  end.

Section SchemaPy.

Variable E : env.

Definition execute (statement : str) : M unit :=
  call (EvExecute statement) (fun h => cursor_execute E h statement).

(** [describe_entity] *)
Definition describe_entity (entity_name : cell) : M (list (cell * cell)) :=
  run execute (txt "DESCRIBE TABLE `" ++ py_format entity_name ++ txt "`");
  do rows <- call EvFetchAll (cursor_fetchall E);
  lift (describe_rows rows).

(** The two loops of [main] over the rows of SHOW TABLES and SHOW VIEWS. *)
Fixpoint entity_schemas (rows : list row) : M (list (cell * list (cell * cell))) :=
  match rows with
  | [] => ret []
  | r :: rest =>
      do name <- lift (index r 1);
      do cols <- describe_entity name;
      do others <- entity_schemas rest;
      ret ((name, cols) :: others)
  end.

Fixpoint omap_list {A B} (f : A -> outcome B) (l : list A) : outcome (list B) :=
  match l with
  | [] => Val []
  | a :: rest =>
      let? b := f a in
      let? bs := omap_list f rest in
      Val (b :: bs)
  end.

Definition column_json (cc : cell * cell) : outcome json :=
  let? n := cell_json (fst cc) in
  let? t := cell_json (snd cc) in
  Val (JObj [(txt "column_name", n); (txt "type", t)]).

Definition entity_json (e : cell * list (cell * cell)) : outcome json :=
  let? n := cell_json (fst e) in
  let? cols := omap_list column_json (snd e) in
  Val (JObj [(txt "name", n); (txt "columns", JArr cols)]).

(** The document that [json.dump([full_schema], f)] writes. *)
Definition snapshot_json (db_name : str)
    (tables views : list (cell * list (cell * cell))) : outcome json :=
  let? ts := omap_list entity_json tables in
  let? vs := omap_list entity_json views in
  Val (JArr [JObj [(txt "database", JStr db_name);
                   (txt "tables", JArr ts);
                   (txt "views", JArr vs)]]).

(** Lines 70 to 72: the file is truncated on opening; a value that
    [json.dump] cannot write leaves a partial document behind. *)
Definition save_snapshot (doc : outcome json) : M unit :=
  fun w =>
    if writable E (cwd_schema_path E)
    then
      let put f :=
        {| schemas := schemas w;
           files := fun q => if decide (q = cwd_schema_path E) then f else files w q;
           trace := trace w |} in
      match doc with
      | Val j => (Val tt, put (Doc j))
      | Exn e => (Exn e, put Garbage)
      end
    else (oraise OSError (txt "Permission denied"), w).

(** [main]: the process exits with status 0 exactly when the computation
    returns a value. *)
Definition main (argv : list str) : M unit :=
  match argv !! 1 with
  | None => raise SystemExit (txt "1")
  | Some db_name =>
      run call EvConnect (sql_connect E);
      run call EvCursor (connection_cursor E);
      try_finally
        (run execute (txt "USE `" ++ db_name ++ txt "`");
         run execute (txt "SHOW TABLES");
         do tables <- call EvFetchAll (cursor_fetchall E);
         do table_schemas <- entity_schemas tables;
         run execute (txt "SHOW VIEWS");
         do views <- call EvFetchAll (cursor_fetchall E);
         do view_schemas <- entity_schemas views;
         save_snapshot (snapshot_json db_name table_schemas view_schemas))
        (run call EvCursorClose (cursor_close E);
         call EvConnectionClose (connection_close E))
  end.

End SchemaPy.

(** ** [app.py]: the [load_schema] route *)

Section LoadSchema.

Variable E : env.

(** [subprocess.run(["python", script_path, db_name], check=True)] *)
Definition run_schema_script (db_name : str) : M unit :=
  fun w =>
    match main E [schema_script E; db_name] w with
    | (Val _, w') => (Val tt, w')
    | (Exn _, w') =>
        (oraise CalledProcessError
           (txt "Command '['python', '" ++ schema_script E ++ txt "', '"
              ++ db_name ++ txt "']' returned non-zero exit status 1."), w')
    end.

Definition set_schemas (c : cache) : M unit :=
  fun w => (Val tt, {| schemas := c; files := files w; trace := trace w |}).

(** [load_schema] *)
Definition load_schema (req : request) : M response :=
  match req_database req with
  | Some (c :: db') =>
      let db_name := c :: db' in
      try_except
        (run write_json E (app_schema_path E) (JArr []);
         run run_schema_script db_name;
         do loaded <- load_current_schema E;
         run set_schemas loaded;
         ret (StatusOk (txt "Schema for `" ++ db_name ++ txt "` loaded successfully.")))
        (fun c => bool_decide (c = CalledProcessError))
        (fun e => ret (ErrorResponse 500 (txt "Failed to load schema: " ++ exn_msg e)))
  | _ => ret (ErrorResponse 400 (txt "Missing database name"))
  end.

End LoadSchema.

(** ** Sample collaborators, used to run the model on concrete inputs *)

(** A stand-in for [sqlparse.parse] on plain statements: a statement ends
    with its semicolon, the text after the last semicolon is a statement
    when it is not empty. *)
Fixpoint split_statements (pending : str) (s : str) : list str :=
  match s with
  | [] => match pending with [] => [] | _ => [rev pending] end
  | c :: s' =>
      if ascii_eqb c ";"%char then rev (c :: pending) :: split_statements [] s'
      else split_statements (c :: pending) s'
  end.

Definition boom (msg : string) : exn :=
  {| exn_class_of := LibraryError; exn_msg := txt msg |}.

(** A generation service that answers every request with [reply], and a
    warehouse on which every call succeeds and every query returns
    [result] under the column names [names]. *)
Definition quiet_env (reply : str) (result : list row) (names : list str) : env :=
  {| requests_post := fun _ _ =>
       Val {| status_code := 200; text := reply; json_content := Val reply |};
     sql_connect := fun _ => Val tt;
     connection_cursor := fun _ => Val tt;
     cursor_execute := fun _ _ => Val tt;
     cursor_fetchall := fun _ => Val result;
     cursor_description := fun _ => Some names;
     cursor_close := fun _ => Val tt;
     connection_close := fun _ => Val tt;
     sqlparse_parse := split_statements [];
     writable := fun _ => true;
     app_schema_path := 0;
     cwd_schema_path := 0;
     databases_path := 1;
     schema_script := txt "schema.py" |}.

(** The same warehouse, except that closing the cursor fails. *)
Definition close_fails_env : env :=
  {| requests_post := requests_post (quiet_env [] [] []);
     sql_connect := fun _ => Val tt;
     connection_cursor := fun _ => Val tt;
     cursor_execute := fun _ _ => Val tt;
     cursor_fetchall := fun _ => Val [];
     cursor_description := fun _ => Some [];
     cursor_close := fun _ => Exn (boom "Error during request to server");
     connection_close := fun _ => Val tt;
     sqlparse_parse := split_statements [];
     writable := fun _ => true;
     app_schema_path := 0;
     cwd_schema_path := 0;
     databases_path := 1;
     schema_script := txt "schema.py" |}.

(** The same warehouse, except that no cursor can be created. *)
Definition cursor_fails_env : env :=
  {| requests_post := requests_post (quiet_env [] [] []);
     sql_connect := fun _ => Val tt;
     connection_cursor := fun _ => Exn (boom "Cannot create cursor");
     cursor_execute := fun _ _ => Val tt;
     cursor_fetchall := fun _ => Val [];
     cursor_description := fun _ => Some [];
     cursor_close := fun _ => Val tt;
     connection_close := fun _ => Val tt;
     sqlparse_parse := split_statements [];
     writable := fun _ => true;
     app_schema_path := 0;
     cwd_schema_path := 0;
     databases_path := 1;
     schema_script := txt "schema.py" |}.

Definition empty_world : world :=
  {| schemas := ∅; files := fun _ => NoFile; trace := [] |}.

(** A world whose cache knows the database [db] with one table [orders]. *)
Definition world_with (db : str) : world :=
  {| schemas :=
       {[ KStr db :=
            {[ KStr (txt "orders") :=
                 {| columns := {[ KStr (txt "amount") := JStr (txt "double") ]} |} ]} ]};
     files := fun _ => NoFile;
     trace := [] |}.

(** * Properties *)

(** ** Statement-boundary detection *)

Lemma scan_lines_none lines sql_text todo i :
  (forall l, l ∈ todo -> starts_statement l = false) ->
  scan_lines lines i todo sql_text = sql_text.
Proof.
  revert i. induction todo as [|l todo IH]; intros i Hno; simpl; [reflexivity|].
  rewrite (Hno l) by (left; reflexivity).
  apply IH. intros l' Hl'. apply Hno. right. exact Hl'.
Qed.

Lemma scan_lines_first lines sql_text pre line post i :
  (forall l, l ∈ pre -> starts_statement l = false) ->
  starts_statement line = true ->
  scan_lines lines i (pre ++ line :: post) sql_text
  = join [LF] (drop (i + length pre) lines).
Proof.
  revert i. induction pre as [|l pre IH]; intros i Hpre Hline; simpl.
  - rewrite Hline. rewrite Nat.add_0_r. reflexivity.
  - rewrite (Hpre l) by (left; reflexivity).
    rewrite IH; [|intros l' Hl'; apply Hpre; right; exact Hl'|exact Hline].
    f_equal. f_equal. lia.
Qed.

Lemma detect_boundary_at sql_text i line :
  splitlines (strip sql_text) !! i = Some line ->
  starts_statement line = true ->
  (forall j l, j < i -> splitlines (strip sql_text) !! j = Some l ->
               starts_statement l = false) ->
  detect_boundary sql_text = join [LF] (drop i (splitlines (strip sql_text))).
Proof.
  intros Hi Hline Hbefore. unfold detect_boundary.
  set (lines := splitlines (strip sql_text)) in *.
  rewrite <- (take_drop_middle lines i line Hi) at 2.
  rewrite scan_lines_first; [| |exact Hline].
  - simpl. rewrite length_take. f_equal. f_equal.
    apply lookup_lt_Some in Hi. lia.
  - intros l Hl. apply list_elem_of_lookup in Hl as [j Hj].
    pose proof (lookup_lt_Some _ _ _ Hj) as Hlt. rewrite length_take in Hlt.
    rewrite lookup_take_lt in Hj by lia.
    apply (Hbefore j l); [lia|exact Hj].
Qed.

(** C3. Statement-boundary detection drops every line before the first
    line whose trimmed, lowercased content begins with one of [select],
    [show], [with], [describe], [explain], [use]: the text becomes the lines
    from that one on.  When no line begins so, the text is left as it
    is. *)
Theorem detect_boundary_spec (sql_text : str) :
  (forall i line,
      splitlines (strip sql_text) !! i = Some line ->
      starts_statement line = true ->
      (forall j l, j < i -> splitlines (strip sql_text) !! j = Some l ->
                   starts_statement l = false) ->
      detect_boundary sql_text = join [LF] (drop i (splitlines (strip sql_text))))
  /\ ((forall l, l ∈ splitlines (strip sql_text) -> starts_statement l = false) ->
      detect_boundary sql_text = sql_text).
Proof.
  split.
  - intros i line. apply detect_boundary_at.
  - intros Hno. unfold detect_boundary. apply scan_lines_none. exact Hno.
Qed.

Lemma detect_boundary_spec_witness :
  detect_boundary (txt "Here is the query:
SELECT 1
FROM t") = txt "SELECT 1
FROM t"
  /\ detect_boundary (txt " VALUES 1 ") = txt " VALUES 1 ".
Proof.
  split.
  - etransitivity.
    { apply (proj1 (detect_boundary_spec _) 1 (txt "SELECT 1")).
      + reflexivity.
      + reflexivity.
      + intros j l Hj. destruct j as [|j]; [|lia].
        intros [= <-]. reflexivity. }
    reflexivity.
  - apply (proj2 (detect_boundary_spec _)).
    intros l Hl. vm_compute in Hl.
    apply list_elem_of_singleton in Hl. subst l. reflexivity.
Defined.

Lemma startswith_app (p rest : str) : startswith p (p ++ rest) = true.
Proof.
  induction p as [|c p IH]; simpl; [reflexivity|].
  unfold ascii_eqb. rewrite Ascii.eqb_refl. exact IH.
Qed.

Lemma starts_statement_prefix (line kw rest : str) :
  kw ∈ leading_keywords ->
  lower (strip line) = kw ++ rest ->
  starts_statement line = true.
Proof.
  intros Hkw Hline. unfold starts_statement. apply existsb_exists.
  exists kw. split.
  - apply list_elem_of_In. exact Hkw.
  - rewrite Hline. apply startswith_app.
Qed.

(** C10. Detection compares by prefix only.  A line whose trimmed,
    lowercased content is a recognized keyword followed by anything at
    all, for instance by more letters as in [users] or [selection], counts
    as the start of the statement: when no earlier line matches, the text
    becomes the lines from that one on. *)
Theorem detect_boundary_prefix_only (sql_text : str) (i : nat) (line kw rest : str) :
  kw ∈ leading_keywords ->
  lower (strip line) = kw ++ rest ->
  splitlines (strip sql_text) !! i = Some line ->
  (forall j l, j < i -> splitlines (strip sql_text) !! j = Some l ->
               starts_statement l = false) ->
  starts_statement line = true
  /\ detect_boundary sql_text = join [LF] (drop i (splitlines (strip sql_text))).
Proof.
  intros Hkw Hline Hi Hbefore.
  assert (Hs : starts_statement line = true)
    by (eapply starts_statement_prefix; eassumption).
  split; [exact Hs|]. apply (detect_boundary_at sql_text i line Hi Hs Hbefore).
Qed.

Lemma detect_boundary_prefix_only_witness :
  detect_boundary (txt "The table is
  Users of the shop
SELECT 1") = txt "  Users of the shop
SELECT 1"
  /\ starts_statement (txt "selection") = true.
Proof.
  split.
  - etransitivity.
    { apply (detect_boundary_prefix_only _ 1 (txt "  Users of the shop")
               (txt "use") (txt "rs of the shop")).
      + vm_compute. set_solver.
      + reflexivity.
      + reflexivity.
      + intros j l Hj. destruct j as [|j]; [|lia].
        intros [= <-]. reflexivity. }
    reflexivity.
  - apply (detect_boundary_prefix_only (txt "selection") 0 (txt "selection")
             (txt "select") (txt "ion")).
    + vm_compute. set_solver.
    + reflexivity.
    + reflexivity.
    + intros j l Hj. lia.
Defined.

(** ** Table-name qualification *)

(** C1. The identifier captured after [FROM] or [JOIN] never holds a dot, so
    the guard for qualified names never fires: the first component of a
    qualified name is prefixed again, and a second pass over a qualified
    text changes it. *)
Theorem qualify_table_names_requalifies :
  qualify_table_names (txt "SELECT * FROM sales.orders") (txt "sales")
  = txt "SELECT * FROM sales.sales.orders"
  /\ qualify_table_names (txt "SELECT * FROM orders") (txt "sales")
     = txt "SELECT * FROM sales.orders"
  /\ qualify_table_names
       (qualify_table_names (txt "SELECT * FROM orders") (txt "sales"))
       (txt "sales")
     = txt "SELECT * FROM sales.sales.orders".
Proof. repeat split; vm_compute; reflexivity. Qed.

(** ** The query executor *)

(** C5. The connection is not released on every exit path.  When closing
    the cursor raises, [connection.close()] is never called; when the
    cursor cannot be created, neither the cursor nor the connection is
    closed. *)
Theorem query_databricks_leaks_connection :
  query_databricks close_fails_env (txt "SELECT 1") None empty_world
  = (Exn (boom "Error during request to server"),
     {| schemas := ∅; files := fun _ => NoFile;
        trace := [EvConnect; EvCursor; EvExecute (txt "SELECT 1"); EvFetchAll;
                  EvDescription; EvCursorClose] |})
  /\ query_databricks cursor_fails_env (txt "SELECT 1") None empty_world
     = (Exn (boom "Cannot create cursor"),
        {| schemas := ∅; files := fun _ => NoFile;
           trace := [EvConnect; EvCursor] |}).
Proof. split; reflexivity. Qed.

(** ** What a computation appends to the trace *)

Definition emits {A} (P : event -> Prop) (m : M A) : Prop :=
  forall w r w', m w = (r, w') ->
    exists evs, trace w' = trace w ++ evs /\ Forall P evs.

Lemma emits_ret {A} P (a : A) : emits P (ret a).
Proof.
  intros w r w' [= <- <-]. exists []. rewrite app_nil_r. split; [reflexivity|constructor].
Qed.

Lemma emits_raise {A} P c msg : emits P (@raise A c msg).
Proof.
  intros w r w' [= <- <-]. exists []. rewrite app_nil_r. split; [reflexivity|constructor].
Qed.

Lemma emits_lift {A} P (o : outcome A) : emits P (lift o).
Proof.
  intros w r w' [= <- <-]. exists []. rewrite app_nil_r. split; [reflexivity|constructor].
Qed.

Lemma emits_call {A} (P : event -> Prop) ev (answer : list event -> outcome A) :
  P ev -> emits P (call ev answer).
Proof.
  intros Hev w r w' [= <- <-]. exists [ev]. split; [reflexivity|].
  constructor; [exact Hev|constructor].
Qed.

Lemma emits_bind {A B} P (m : M A) (f : A -> M B) :
  emits P m -> (forall a, emits P (f a)) -> emits P (bind m f).
Proof.
  intros Hm Hf w r w'. unfold bind.
  destruct (m w) as [[a|e] w1] eqn:Hmw; intros H.
  - destruct (Hm _ _ _ Hmw) as (evs1 & Ht1 & HP1).
    destruct (Hf a _ _ _ H) as (evs2 & Ht2 & HP2).
    exists (evs1 ++ evs2). rewrite Ht2, Ht1, app_assoc.
    split; [reflexivity|]. apply Forall_app; split; assumption.
  - injection H as <- <-. exact (Hm _ _ _ Hmw).
Qed.

Lemma emits_try_finally {A} P (body : M A) (cleanup : M unit) :
  emits P body -> emits P cleanup -> emits P (try_finally body cleanup).
Proof.
  intros Hb Hc w r w'. unfold try_finally.
  destruct (body w) as [rb w1] eqn:Hbw.
  destruct (cleanup w1) as [[u|e] w2] eqn:Hcw; intros [= <- <-];
    destruct (Hb _ _ _ Hbw) as (evs1 & Ht1 & HP1);
    destruct (Hc _ _ _ Hcw) as (evs2 & Ht2 & HP2);
    exists (evs1 ++ evs2); rewrite Ht2, Ht1, app_assoc;
    (split; [reflexivity|]); apply Forall_app; split; assumption.
Qed.

Lemma emits_try_except {A} P (body : M A) catches (handler : exn -> M A) :
  emits P body -> (forall e, emits P (handler e)) ->
  emits P (try_except body catches handler).
Proof.
  intros Hb Hh w r w'. unfold try_except.
  destruct (body w) as [[a|e] w1] eqn:Hbw.
  - intros [= <- <-]. exact (Hb _ _ _ Hbw).
  - destruct (catches (exn_class_of e)).
    + intros H. destruct (Hb _ _ _ Hbw) as (evs1 & Ht1 & HP1).
      destruct (Hh e _ _ _ H) as (evs2 & Ht2 & HP2).
      exists (evs1 ++ evs2). rewrite Ht2, Ht1, app_assoc.
      split; [reflexivity|]. apply Forall_app; split; assumption.
    + intros [= <- <-]. exact (Hb _ _ _ Hbw).
Qed.

Lemma emits_weaken {A} (P Q : event -> Prop) (m : M A) :
  (forall e, P e -> Q e) -> emits P m -> emits Q m.
Proof.
  intros HPQ Hm w r w' H. destruct (Hm _ _ _ H) as (evs & Ht & HP).
  exists evs. split; [exact Ht|]. eapply Forall_impl; eassumption.
Qed.

Create HintDb emits.
#[local] Hint Resolve emits_ret emits_raise emits_lift emits_bind emits_try_finally
  emits_try_except : emits.

(** The executor talks to the warehouse only, and the only statements it
    executes are the [USE] directive and the query it was given. *)
Definition executor_event (sql_query db_name : str) (e : event) : Prop :=
  is_warehouse_event e = true /\
  forall st, e = EvExecute st ->
             st = txt "USE `" ++ db_name ++ txt "`" \/ st = sql_query.

Lemma query_databricks_emits E sql_query db_name :
  emits (executor_event sql_query db_name)
        (query_databricks E sql_query (Some db_name)).
Proof.
  unfold query_databricks.
  repeat (first [ apply emits_bind; [|intros ?]
                | apply emits_try_finally
                | apply emits_ret ]);
    try (destruct db_name; [apply emits_ret|]);
    apply emits_call; (split; [reflexivity|]); intros st Hst;
    try discriminate; injection Hst as <-; auto.
Qed.

Lemma generate_insight_emits E rows columns prompt :
  emits (fun e => is_post e = true) (generate_insight E rows columns prompt).
Proof.
  unfold generate_insight.
  apply emits_bind; [apply emits_lift|]. intros formatted.
  destruct (forallb _ formatted); [|apply emits_raise].
  apply emits_bind; [apply emits_call; reflexivity|]. intros res.
  destruct (Nat.eqb _ _); [apply emits_lift|apply emits_raise].
Qed.

Definition logged (w : world) (ev : event) : world :=
  {| schemas := schemas w; files := files w; trace := trace w ++ [ev] |}.

(** [generate_sql] makes exactly one call, to the generation service. *)
Lemma generate_sql_world E prompt schema db_name w r w' :
  generate_sql E prompt schema db_name w = (r, w') ->
  w' = logged w (EvPost (sql_payload prompt schema db_name)).
Proof.
  unfold generate_sql, bind, call, lift, raise, logged. simpl.
  destruct (requests_post E _ _) as [res|e]; [|intros [= _ <-]; reflexivity].
  destruct (Nat.eqb _ _); [|intros [= _ <-]; reflexivity].
  destruct (json_content res); intros [= _ <-]; reflexivity.
Qed.

Lemma generate_sql_ok E prompt schema db_name w res raw :
  requests_post E (trace w) (sql_payload prompt schema db_name) = Val res ->
  status_code res = 200 ->
  json_content res = Val raw ->
  generate_sql E prompt schema db_name w
  = (sanitize E raw db_name, logged w (EvPost (sql_payload prompt schema db_name))).
Proof.
  intros Hpost Hstatus Hcontent.
  unfold generate_sql, bind, call, lift, logged. simpl.
  rewrite Hpost, Hstatus, Hcontent. simpl. reflexivity.
Qed.

(** ** The [analyze] route *)

Definition use_statement (db_name : str) : str := txt "USE `" ++ db_name ++ txt "`".

(** What [analyze] does once the request names a known database. *)
Definition analyze_known (E : env) (prompt : str) (schema : db_schema)
    (db_name : str) : M response :=
  try_except
    (do sql_query <- generate_sql E prompt schema db_name;
     do rc <- query_databricks E sql_query (Some db_name);
     do insight <- match fst rc with
                   | _ :: _ => generate_insight E (fst rc) (snd rc) prompt
                   | [] => ret no_data_message
                   end;
     ret (AnalyzeOk sql_query (snd rc) (fst rc) insight))
    any_exception
    (fun e => ret (ErrorResponse 500 (exn_msg e))).

Lemma analyze_unfold E req w prompt db_name schema :
  req_prompt req = Some prompt -> prompt <> [] ->
  req_database req = Some db_name -> db_name <> [] ->
  schemas w !! KStr db_name = Some schema ->
  analyze E req w = analyze_known E prompt schema db_name w.
Proof.
  intros Hp Hpne Hd Hdne Hs. unfold analyze, analyze_known.
  rewrite Hp, Hd. destruct prompt as [|p prompt']; [congruence|].
  destruct db_name as [|c db']; [congruence|].
  unfold try_except. rewrite Hs. reflexivity.
Qed.

Lemma contains_here (needle s : str) :
  startswith needle s = true -> contains needle s = true.
Proof. intros H. destruct s; simpl in *; rewrite H; reflexivity. Qed.

Lemma contains_app (needle pre post : str) :
  contains needle (pre ++ needle ++ post) = true.
Proof.
  induction pre as [|c pre IH].
  - simpl. apply contains_here. apply startswith_app.
  - simpl. rewrite IH. apply orb_true_r.
Qed.

Lemma mentions_any_case (pre hit post : str) :
  lower hit = txt "information_schema" ->
  mentions_information_schema (pre ++ hit ++ post) = true.
Proof.
  intros Hhit. unfold mentions_information_schema, lower.
  rewrite !map_app. fold (lower hit). rewrite Hhit. apply contains_app.
Qed.

(** C2. When the reply of the generation service, after fence stripping,
    boundary detection, placeholder substitution and qualification, holds
    [information_schema] in any letter case, the sanitizer fails with the
    restricted-namespace error; [analyze] answers with that error, and the
    only call of the request is the one to the generation service: the
    warehouse is not called. *)
Theorem information_schema_is_rejected (E : env) (req : request) (w : world)
    (prompt db_name : str) (schema : db_schema) (res : http_response)
    (raw pre hit post : str) :
  req_prompt req = Some prompt -> prompt <> [] ->
  req_database req = Some db_name -> db_name <> [] ->
  schemas w !! KStr db_name = Some schema ->
  requests_post E (trace w) (sql_payload prompt schema db_name) = Val res ->
  status_code res = 200 ->
  json_content res = Val raw ->
  prepare raw db_name = pre ++ hit ++ post ->
  lower hit = txt "information_schema" ->
  sanitize E raw db_name = oraise ValueError restricted_message
  /\ generate_sql E prompt schema db_name w
     = (oraise ValueError restricted_message,
        logged w (EvPost (sql_payload prompt schema db_name)))
  /\ analyze E req w
     = (Val (ErrorResponse 500 restricted_message),
        logged w (EvPost (sql_payload prompt schema db_name)))
  /\ Forall (fun e => is_warehouse_event e = false)
       (drop (length (trace w))
          (trace (snd (analyze E req w)))).
Proof.
  intros Hp Hpne Hd Hdne Hs Hpost Hstatus Hcontent Htext Hhit.
  assert (Hsan : sanitize E raw db_name = oraise ValueError restricted_message).
  { unfold sanitize. rewrite Htext, (mentions_any_case pre hit post Hhit).
    reflexivity. }
  assert (Hgen : generate_sql E prompt schema db_name w
                 = (oraise ValueError restricted_message,
                    logged w (EvPost (sql_payload prompt schema db_name)))).
  { rewrite (generate_sql_ok E prompt schema db_name w res raw Hpost Hstatus Hcontent).
    rewrite Hsan. reflexivity. }
  assert (Han : analyze E req w
                = (Val (ErrorResponse 500 restricted_message),
                   logged w (EvPost (sql_payload prompt schema db_name)))).
  { rewrite (analyze_unfold E req w prompt db_name schema Hp Hpne Hd Hdne Hs).
    unfold analyze_known, try_except, bind. rewrite Hgen. reflexivity. }
  repeat split; try assumption.
  rewrite Han. simpl. rewrite drop_app_length.
  constructor; [reflexivity|constructor].
Qed.

Definition sample_request (prompt db : string) : request :=
  {| req_prompt := Some (txt prompt); req_database := Some (txt db) |}.

Lemma information_schema_is_rejected_witness :
  analyze (quiet_env (txt "SELECT * FROM Information_Schema.tables") [] [])
    (sample_request "list the tables" "sales_db") (world_with (txt "sales_db"))
  = (Val (ErrorResponse 500 restricted_message),
     logged (world_with (txt "sales_db"))
       (EvPost (sql_payload (txt "list the tables")
                  {[ KStr (txt "orders") :=
                       {| columns := {[ KStr (txt "amount") := JStr (txt "double") ]} |} ]}
                  (txt "sales_db")))).
Proof.
  refine (proj1 (proj2 (proj2
    (information_schema_is_rejected
       (quiet_env (txt "SELECT * FROM Information_Schema.tables") [] [])
       (sample_request "list the tables" "sales_db") (world_with (txt "sales_db"))
       (txt "list the tables") (txt "sales_db") _ _
       (txt "SELECT * FROM Information_Schema.tables")
       (txt "SELECT * FROM sales_db.") (txt "Information_Schema") (txt ".tables")
       eq_refl _ eq_refl _ _ eq_refl eq_refl eq_refl _ _)))).
  - discriminate.
  - discriminate.
  - vm_compute. reflexivity.
  - vm_compute. reflexivity.
  - vm_compute. reflexivity.
Defined.

Lemma try_except_trace {A} (body : M A) catches (f : exn -> A) w r w' :
  try_except body catches (fun e => ret (f e)) w = (r, w') ->
  w' = snd (body w).
Proof.
  unfold try_except, ret. destruct (body w) as [[a|e] w1]; simpl.
  - intros [= _ <-]. reflexivity.
  - destruct (catches _); intros [= _ <-]; reflexivity.
Qed.

(** C6. When the sanitized text parses as more than one statement, the
    statement returned is the first one: the request is not rejected, and
    the only statements [analyze] then sends to the warehouse are the [USE]
    directive and that first statement. *)
Theorem only_first_statement_is_kept (E : env) (req : request) (w : world)
    (prompt db_name : str) (schema : db_schema) (res : http_response)
    (raw first second : str) (others : list str) :
  req_prompt req = Some prompt -> prompt <> [] ->
  req_database req = Some db_name -> db_name <> [] ->
  schemas w !! KStr db_name = Some schema ->
  requests_post E (trace w) (sql_payload prompt schema db_name) = Val res ->
  status_code res = 200 ->
  json_content res = Val raw ->
  mentions_information_schema (prepare raw db_name) = false ->
  sqlparse_parse E (strip (prepare raw db_name)) = first :: second :: others ->
  sanitize E raw db_name = Val first
  /\ generate_sql E prompt schema db_name w
     = (Val first, logged w (EvPost (sql_payload prompt schema db_name)))
  /\ exists evs,
       trace (snd (analyze E req w)) = trace w ++ evs
       /\ Forall (fun e => forall st, e = EvExecute st ->
                    st = use_statement db_name \/ st = first) evs.
Proof.
  intros Hp Hpne Hd Hdne Hs Hpost Hstatus Hcontent Hclean Hparse.
  assert (Hsan : sanitize E raw db_name = Val first).
  { unfold sanitize. rewrite Hclean, Hparse. reflexivity. }
  assert (Hgen : generate_sql E prompt schema db_name w
                 = (Val first, logged w (EvPost (sql_payload prompt schema db_name)))).
  { rewrite (generate_sql_ok E prompt schema db_name w res raw Hpost Hstatus Hcontent).
    rewrite Hsan. reflexivity. }
  repeat split; try assumption.
  rewrite (analyze_unfold E req w prompt db_name schema Hp Hpne Hd Hdne Hs).
  unfold analyze_known.
  destruct (try_except _ _ _ w) as [r w'] eqn:Hrun.
  apply try_except_trace in Hrun. simpl. subst w'.
  unfold bind at 1. rewrite Hgen.
  match goal with |- context [snd (?k ?w1)] =>
    destruct (k w1) as [r2 w2] eqn:Hk end.
  assert (Hem : emits (fun e => forall st, e = EvExecute st ->
                         st = use_statement db_name \/ st = first)
                  (do rc <- query_databricks E first (Some db_name);
                   do insight <- match fst rc with
                                 | _ :: _ => generate_insight E (fst rc) (snd rc) prompt
                                 | [] => ret no_data_message
                                 end;
                   ret (AnalyzeOk first (snd rc) (fst rc) insight))).
  { apply emits_bind.
    - eapply emits_weaken; [|apply query_databricks_emits].
      intros e [_ He]. exact He.
    - intros rc. apply emits_bind; [|intros; apply emits_ret].
      destruct (fst rc); [apply emits_ret|].
      eapply emits_weaken; [|apply generate_insight_emits].
      intros [] He st; try discriminate. }
  destruct (Hem _ _ _ Hk) as (evs & Ht & Hevs).
  exists (EvPost (sql_payload prompt schema db_name) :: evs). simpl.
  rewrite Ht. simpl. rewrite <- app_assoc. split; [reflexivity|].
  constructor; [intros st; discriminate|exact Hevs].
Qed.

Lemma only_first_statement_is_kept_witness :
  sanitize (quiet_env (txt "SELECT 1; DROP TABLE t") [] [])
    (txt "SELECT 1; DROP TABLE t") (txt "sales_db")
  = Val (txt "SELECT 1;").
Proof.
  refine (proj1
    (only_first_statement_is_kept
       (quiet_env (txt "SELECT 1; DROP TABLE t") [] [])
       (sample_request "count" "sales_db") (world_with (txt "sales_db"))
       (txt "count") (txt "sales_db") _ _
       (txt "SELECT 1; DROP TABLE t")
       (txt "SELECT 1;") (txt " DROP TABLE t") []
       eq_refl _ eq_refl _ _ eq_refl eq_refl eq_refl _ _)).
  - discriminate.
  - discriminate.
  - vm_compute. reflexivity.
  - vm_compute. reflexivity.
  - vm_compute. reflexivity.
Defined.



(** ** The schema cache *)

(** An outcome that [except Exception] handles if it is an exception. *)
Definition caught {A} (o : outcome A) : Prop :=
  forall e, o = Exn e -> any_exception (exn_class_of e) = true.

Lemma caught_val {A} (a : A) : caught (Val a).
Proof. intros e H. discriminate. Qed.

Lemma caught_oraise {A} c msg : c <> SystemExit -> caught (@oraise A c msg).
Proof.
  intros Hc e [= <-]. unfold any_exception. simpl.
  rewrite bool_decide_eq_false_2 by exact Hc. reflexivity.
Qed.

Lemma caught_obind {A B} (o : outcome A) (f : A -> outcome B) :
  caught o -> (forall a, caught (f a)) -> caught (obind o f).
Proof.
  intros Ho Hf. destruct o as [a|e]; simpl; [apply Hf|].
  intros e' [= <-]. apply (Ho e). reflexivity.
Qed.

Lemma caught_subscript v k : caught (subscript v k).
Proof.
  destruct v; simpl; try (apply caught_oraise; discriminate).
  destruct (member k members); [apply caught_val|apply caught_oraise; discriminate].
Qed.

Lemma caught_get_or_empty v k : caught (get_or_empty v k).
Proof.
  destruct v; simpl; try (apply caught_oraise; discriminate). apply caught_val.
Qed.

Lemma caught_iterate v : caught (iterate v).
Proof.
  destruct v; simpl; try (apply caught_oraise; discriminate); apply caught_val.
Qed.

Lemma caught_hashable v : caught (hashable v).
Proof.
  destruct v; simpl; try (apply caught_oraise; discriminate); apply caught_val.
Qed.

Lemma caught_dict_comp {A} (entry : json -> outcome (key * A)) items acc :
  (forall x, caught (entry x)) -> caught (dict_comp entry items acc).
Proof.
  intros Hentry. revert acc. induction items as [|x items IH]; intros acc; simpl.
  - apply caught_val.
  - specialize (Hentry x). destruct (entry x) as [[k v]|e]; [apply IH|].
    intros e' [= <-]. apply (Hentry e). reflexivity.
Qed.

Create HintDb caught.
#[local] Hint Resolve caught_val caught_subscript caught_get_or_empty caught_iterate
  caught_hashable : caught.

Ltac caught_steps :=
  repeat first
    [ solve [auto with caught]
    | apply caught_obind; [solve [auto with caught]|intros ?]
    | apply caught_dict_comp; intros ? ].

Lemma caught_columns_of entity : caught (columns_of entity).
Proof. unfold columns_of. caught_steps. Qed.

#[local] Hint Resolve caught_columns_of : caught.

Lemma caught_entities_of entities : caught (entities_of entities).
Proof. unfold entities_of. caught_steps. Qed.

#[local] Hint Resolve caught_entities_of : caught.

Lemma caught_build_cache raw : caught (build_cache raw).
Proof. unfold build_cache. caught_steps. Qed.

(** Reading and parsing the snapshot, without the handler. *)
Definition read_snapshot (E : env) (w : world) : outcome cache :=
  match files w (cwd_schema_path E) with
  | NoFile => oraise OSError (txt "No such file or directory")
  | Garbage => oraise JSONDecodeError (txt "Expecting value")
  | Doc j => build_cache j
  end.

Lemma load_current_schema_cases E w :
  load_current_schema E w
  = (Val (match read_snapshot E w with Val m => m | Exn _ => ∅ end), w).
Proof.
  unfold load_current_schema, read_snapshot, try_except, bind, read_json, lift, ret.
  destruct (files w (cwd_schema_path E)) as [| |j]; try reflexivity.
  pose proof (caught_build_cache j) as Hc.
  destruct (build_cache j) as [m|e]; [reflexivity|].
  rewrite (Hc e eq_refl). reflexivity.
Qed.


(** [get_database_list] behaves the same way with the empty list. *)
Lemma get_database_list_never_raises (E : env) (w : world) :
  exists v : json,
    get_database_list E w = (Val v, w)
    /\ ((forall j, files w (databases_path E) <> Doc j) -> v = JArr []).
Proof.
  unfold get_database_list, try_except, read_json, ret.
  destruct (files w (databases_path E)) as [| |j]; simpl; eexists;
    (split; [reflexivity|]); intros Hj; try reflexivity.
  exfalso. apply (Hj j). reflexivity.
Qed.

(** ** The [load_schema] route *)

Lemma bind_val_inv {A B} (m : M A) (f : A -> M B) w b w' :
  bind m f w = (Val b, w') ->
  exists a w1, m w = (Val a, w1) /\ f a w1 = (Val b, w').
Proof.
  unfold bind. destruct (m w) as [[a|e] w1]; [|discriminate].
  intros H. exists a, w1. split; [reflexivity|exact H].
Qed.

Lemma try_finally_val_inv {A} (body : M A) (cleanup : M unit) w a w' :
  try_finally body cleanup w = (Val a, w') ->
  exists w1, body w = (Val a, w1) /\ cleanup w1 = (Val tt, w').
Proof.
  unfold try_finally. destruct (body w) as [r w1].
  destruct (cleanup w1) as [[[]|e] w2] eqn:Hc; [|discriminate].
  intros [= -> <-]. exists w1. split; [reflexivity|exact Hc].
Qed.

(** A computation that leaves the files and the cache alone. *)
Definition keeps_store {A} (m : M A) : Prop :=
  forall w r w', m w = (r, w') -> files w' = files w /\ schemas w' = schemas w.

Lemma keeps_ret {A} (a : A) : keeps_store (ret a).
Proof. intros w r w' [= _ <-]. split; reflexivity. Qed.

Lemma keeps_lift {A} (o : outcome A) : keeps_store (lift o).
Proof. intros w r w' [= _ <-]. split; reflexivity. Qed.

Lemma keeps_call {A} ev (answer : list event -> outcome A) :
  keeps_store (call ev answer).
Proof. intros w r w' [= _ <-]. split; reflexivity. Qed.

Lemma keeps_bind {A B} (m : M A) (f : A -> M B) :
  keeps_store m -> (forall a, keeps_store (f a)) -> keeps_store (bind m f).
Proof.
  intros Hm Hf w r w'. unfold bind.
  destruct (m w) as [[a|e] w1] eqn:Hmw; intros H.
  - destruct (Hm _ _ _ Hmw) as [Hf1 Hs1]. destruct (Hf a _ _ _ H) as [Hf2 Hs2].
    split; congruence.
  - injection H as <- <-. exact (Hm _ _ _ Hmw).
Qed.

Create HintDb keeps.
#[local] Hint Resolve keeps_ret keeps_lift keeps_call : keeps.

Ltac keeps_steps :=
  repeat first
    [ solve [auto with keeps]
    | apply keeps_bind; [solve [auto with keeps]|intros ?] ].

Lemma keeps_execute E statement : keeps_store (execute E statement).
Proof. unfold execute. keeps_steps. Qed.

#[local] Hint Resolve keeps_execute : keeps.

Lemma keeps_describe_entity E name : keeps_store (describe_entity E name).
Proof. unfold describe_entity. keeps_steps. Qed.

#[local] Hint Resolve keeps_describe_entity : keeps.

Lemma keeps_entity_schemas E rows : keeps_store (entity_schemas E rows).
Proof.
  induction rows as [|r rows IH]; simpl; [apply keeps_ret|]. keeps_steps.
Qed.

#[local] Hint Resolve keeps_entity_schemas : keeps.

Definition snapshot_for (db_name : str) (ts vs : list json) : json :=
  JArr [JObj [(txt "database", JStr db_name);
              (txt "tables", JArr ts);
              (txt "views", JArr vs)]].

Lemma snapshot_json_shape db_name tables views j :
  snapshot_json db_name tables views = Val j ->
  exists ts vs, j = snapshot_for db_name ts vs.
Proof.
  unfold snapshot_json, obind.
  destruct (omap_list entity_json tables) as [ts|]; [|discriminate].
  destruct (omap_list entity_json views) as [vs|]; [|discriminate].
  intros [= <-]. exists ts, vs. reflexivity.
Qed.

Lemma save_snapshot_val E doc w w' :
  save_snapshot E doc w = (Val tt, w') ->
  exists j, doc = Val j /\ files w' (cwd_schema_path E) = Doc j.
Proof.
  unfold save_snapshot. destruct (writable E _); [|discriminate].
  destruct doc as [j|e]; [|discriminate].
  intros [= <-]. exists j. split; [reflexivity|]. simpl.
  rewrite decide_True by reflexivity. reflexivity.
Qed.

(** A run of [schema.py] that exits with status 0 leaves a snapshot with
    one element, for the database it was given. *)
Lemma main_writes_one_database E script db_name w w' :
  main E [script; db_name] w = (Val tt, w') ->
  exists ts vs, files w' (cwd_schema_path E) = Doc (snapshot_for db_name ts vs).
Proof.
  unfold main. simpl.
  intros H.
  apply bind_val_inv in H as (_ & w1 & _ & H).
  apply bind_val_inv in H as (_ & w2 & _ & H).
  apply try_finally_val_inv in H as (w3 & Hbody & Hclean).
  assert (Hkeep : files w' = files w3).
  { assert (Hk : keeps_store
                   (run call EvCursorClose (cursor_close E);
                    call EvConnectionClose (connection_close E)))
      by keeps_steps.
    apply (Hk _ _ _ Hclean). }
  repeat (apply bind_val_inv in Hbody as (? & ? & _ & Hbody)).
  apply save_snapshot_val in Hbody as (j & Hdoc & Hfile).
  apply snapshot_json_shape in Hdoc as (ts & vs & ->).
  exists ts, vs. rewrite Hkeep. exact Hfile.
Qed.

Lemma member_database db_name ts vs :
  member (txt "database")
    [(txt "database", JStr db_name); (txt "tables", ts); (txt "views", vs)]
  = Some (JStr db_name).
Proof. reflexivity. Qed.

Lemma member_tables db_name ts vs :
  member (txt "tables")
    [(txt "database", JStr db_name); (txt "tables", ts); (txt "views", vs)]
  = Some ts.
Proof. reflexivity. Qed.

Lemma member_views db_name ts vs :
  member (txt "views")
    [(txt "database", JStr db_name); (txt "tables", ts); (txt "views", vs)]
  = Some vs.
Proof. reflexivity. Qed.

(** The cache built from a one-element snapshot has one entry. *)
Lemma build_cache_single db_name ts vs m :
  build_cache (snapshot_for db_name ts vs) = Val m ->
  exists s, m = {[ KStr db_name := s ]}.
Proof.
  unfold build_cache, snapshot_for. simpl iterate. unfold obind at 1.
  unfold dict_comp, subscript, get_or_empty.
  rewrite member_database, member_tables, member_views. simpl.
  destruct (entities_of (JArr ts)) as [tables|]; [|discriminate]. simpl.
  destruct (entities_of (JArr vs)) as [views|]; [|discriminate]. simpl.
  intros [= <-]. exists (views ∪ tables). apply insert_empty.
Qed.

Lemma load_schema_success E req w db_name status w' :
  req_database req = Some db_name ->
  load_schema E req w = (Val (StatusOk status), w') ->
  exists wa wb,
    write_json E (app_schema_path E) (JArr []) w = (Val tt, wa)
    /\ main E [schema_script E; db_name] wa = (Val tt, wb)
    /\ w' = {| schemas := match read_snapshot E wb with Val m => m | Exn _ => ∅ end;
               files := files wb; trace := trace wb |}.
Proof.
  intros Hd. unfold load_schema. rewrite Hd.
  destruct db_name as [|c db']; [discriminate|].
  unfold try_except.
  match goal with |- context [match ?body w with _ => _ end] =>
    destruct (body w) as [[resp|e] w1] eqn:Hbody end.
  - intros [= -> ->].
    apply bind_val_inv in Hbody as ([] & wa & Hwrite & Hbody).
    apply bind_val_inv in Hbody as ([] & wb & Hscript & Hbody).
    apply bind_val_inv in Hbody as (loaded & wc & Hload & Hbody).
    apply bind_val_inv in Hbody as ([] & wd & Hset & Hbody).
    rewrite load_current_schema_cases in Hload.
    injection Hload as Hloaded Hwc. subst loaded wc.
    unfold set_schemas in Hset. injection Hset as Hwd. subst wd.
    injection Hbody as _ Hw'. subst w'.
    unfold run_schema_script in Hscript.
    destruct (main E _ wa) as [[[]|e] wb'] eqn:Hmain; [|discriminate].
    injection Hscript as Hwb. subst wb'.
    exists wa, wb. repeat split; assumption.
  - destruct (bool_decide _); [intros [= ]|discriminate].
Qed.

(** C9. After a successful [load_schema] for [db_name] the snapshot in the
    working directory holds one element, for [db_name], and the cache
    holds no entry but the one for [db_name]; an [analyze] request that
    names any other database is then answered with the unknown-database
    error, without any call. *)
Theorem load_schema_keeps_one_database (E : env) (req : request) (w w' : world)
    (db_name status : str) :
  req_database req = Some db_name ->
  load_schema E req w = (Val (StatusOk status), w') ->
  dom (schemas w') ⊆ {[ KStr db_name ]}
  /\ (exists ts vs,
        files w' (cwd_schema_path E) = Doc (snapshot_for db_name ts vs))
  /\ (forall req' prompt other,
        req_prompt req' = Some prompt -> prompt <> [] ->
        req_database req' = Some other -> other <> [] ->
        other <> db_name ->
        analyze E req' w'
        = (Val (ErrorResponse 400 (txt "Unknown database: " ++ other)), w')).
Proof.
  intros Hd Hrun.
  destruct (load_schema_success E req w db_name status w' Hd Hrun)
    as (wa & wb & _ & Hmain & ->).
  destruct (main_writes_one_database E _ _ _ _ Hmain) as (ts & vs & Hfile).
  assert (Hdom : dom (match read_snapshot E wb with Val m => m | Exn _ => ∅ end)
                 ⊆ ({[ KStr db_name ]} : gset key)).
  { unfold read_snapshot. rewrite Hfile.
    destruct (build_cache _) as [m|e] eqn:Hb.
    - apply build_cache_single in Hb as [s ->]. rewrite dom_singleton_L. reflexivity.
    - rewrite dom_empty_L. apply empty_subseteq. }
  split; [exact Hdom|]. split; [exists ts, vs; exact Hfile|].
  intros req' prompt other Hp Hpne Ho Hone Hneq.
  unfold analyze. rewrite Hp, Ho.
  destruct prompt as [|p prompt']; [congruence|].
  destruct other as [|c other']; [congruence|].
  unfold try_except. simpl.
  assert (Hnone : (match read_snapshot E wb with Val m => m | Exn _ => ∅ end)
                    !! KStr (c :: other') = None).
  { apply not_elem_of_dom. intros Hin. apply Hdom in Hin.
    apply elem_of_singleton in Hin. congruence. }
  rewrite Hnone. reflexivity.
Qed.

Definition shop_env : env :=
  quiet_env [] [[CStr (txt "sales_db"); CStr (txt "orders")]] [].

Lemma load_schema_keeps_one_database_witness :
  fst (analyze shop_env (sample_request "count" "old_db")
         (snd (load_schema shop_env (sample_request "" "sales_db")
                 (world_with (txt "old_db")))))
  = Val (ErrorResponse 400 (txt "Unknown database: old_db")).
Proof.
  pose proof (load_schema_keeps_one_database shop_env
    (sample_request "" "sales_db") (world_with (txt "old_db"))
    (snd (load_schema shop_env (sample_request "" "sales_db")
            (world_with (txt "old_db"))))
    (txt "sales_db") (txt "Schema for `sales_db` loaded successfully.")
    eq_refl ltac:(vm_compute; reflexivity)) as (_ & _ & H).
  rewrite (H (sample_request "count" "old_db") (txt "count") (txt "old_db")
             eq_refl ltac:(discriminate) eq_refl ltac:(discriminate)
             ltac:(discriminate)).
  reflexivity.
Defined.

(** ** The matcher on the three patterns *)

(** The text after the longest run of characters of a class. *)
Fixpoint skip_cls (k : cls) (s : str) : str :=
  match s with
  | x :: s' => if in_cls k x then skip_cls k s' else s
  | [] => []
  end.

Fixpoint prev_after (k : cls) (prev : option ascii) (s : str) : option ascii :=
  match s with
  | x :: s' => if in_cls k x then prev_after k (Some x) s' else prev
  | [] => prev
  end.

(** [s] starts with the literal [l], letter case ignored or not. *)
Fixpoint lits_match (ignorecase : bool) (l s : str) : bool :=
  match l, s with
  | [], _ => true
  | _ :: _, [] => false
  | c :: l', x :: s' => lit_matches ignorecase c x && lits_match ignorecase l' s'
  end.

Lemma skip_cls_space s : skip_cls ClsSpace s = lstrip s.
Proof. induction s as [|x s IH]; simpl; [reflexivity|]. rewrite IH. reflexivity. Qed.

Lemma skip_cls_length k s : length (skip_cls k s) <= length s.
Proof.
  induction s as [|x s IH]; simpl; [lia|]. destruct (in_cls k x); simpl; lia.
Qed.

(** Greedy repetition takes the longest run when the continuation cannot
    start with a character of the class. *)
Lemma star_loop_greedy k cont :
  (forall p x s', in_cls k x = true -> cont p (x :: s') = None) ->
  forall prev s, star_loop k prev s cont = cont (prev_after k prev s) (skip_cls k s).
Proof.
  intros Hcont prev s. revert prev.
  induction s as [|x s IH]; intros prev; simpl; [reflexivity|].
  destruct (in_cls k x) eqn:Hx; [|reflexivity].
  rewrite IH. destruct (cont _ _) eqn:Hc; [reflexivity|].
  apply Hcont. exact Hx.
Qed.

(** It also does when the continuation always succeeds. *)
Lemma star_loop_total k cont :
  (forall p s', cont p s' <> None) ->
  forall prev s, star_loop k prev s cont = cont (prev_after k prev s) (skip_cls k s).
Proof.
  intros Hcont prev s. revert prev.
  induction s as [|x s IH]; intros prev; simpl; [reflexivity|].
  destruct (in_cls k x) eqn:Hx; [|reflexivity].
  rewrite IH. destruct (cont _ _) eqn:Hc; [reflexivity|].
  exfalso. exact (Hcont _ _ Hc).
Qed.

Lemma rmatch_seq ignorecase r1 r2 prev s g cont :
  rmatch ignorecase (RSeq r1 r2) prev s g cont
  = rmatch ignorecase r1 prev s g
      (fun p s' g' => rmatch ignorecase r2 p s' g' cont).
Proof. reflexivity. Qed.

Lemma rmatch_lit ignorecase c prev s g cont :
  rmatch ignorecase (RLit c) prev s g cont
  = match s with
    | x :: s' => if lit_matches ignorecase c x then cont (Some x) s' g else None
    | [] => None
    end.
Proof. reflexivity. Qed.

Lemma rmatch_lits ignorecase l : forall c prev s g cont,
  rmatch ignorecase (RLits (c :: l)) prev s g cont
  = if lits_match ignorecase (c :: l) s
    then cont (last (take (S (length l)) s)) (drop (S (length l)) s) g
    else None.
Proof.
  induction l as [|c' l IH]; intros c prev s g cont.
  - simpl. destruct s as [|x s]; [reflexivity|].
    destruct (lit_matches ignorecase c x); reflexivity.
  - change (RLits (c :: c' :: l)) with (RSeq (RLit c) (RLits (c' :: l))).
    rewrite rmatch_seq, rmatch_lit. destruct s as [|x s]; [reflexivity|].
    rewrite IH.
    change (lits_match ignorecase (c :: c' :: l) (x :: s))
      with (lit_matches ignorecase c x && lits_match ignorecase (c' :: l) s).
    destruct (lit_matches ignorecase c x); [|reflexivity]. cbn [andb].
    destruct (lits_match ignorecase (c' :: l) s) eqn:Hl; [|reflexivity].
    destruct s as [|y s]; [discriminate|]. reflexivity.
Qed.

Definition backtick : ascii := "`"%char.

(** The opening fence at the current position, in closed form. *)
Definition fence_open_here (s : str) : option (nat * groups) :=
  if lits_match true (txt "```sql") s
  then Some (length s - length (skip_cls ClsSpace (drop 6 s)), [])
  else None.

Lemma match_here_fence_open prev s :
  match_here true fence_open_re prev s = fence_open_here s.
Proof.
  unfold match_here, fence_open_re, fence_open_here.
  rewrite rmatch_seq.
  change (RLits (txt "```sql")) with (RLits (backtick :: txt "``sql")).
  rewrite rmatch_lits.
  change (backtick :: txt "``sql") with (txt "```sql").
  destruct (lits_match true (txt "```sql") s); [|reflexivity].
  change (length (txt "``sql")) with 5.
  cbn [rmatch]. rewrite star_loop_total by (intros p s' H; discriminate).
  reflexivity.
Qed.

(** The end-of-text test of the dollar anchor. *)
Definition at_end (s : str) : bool :=
  match s with
  | [] => true
  | [x] => ascii_eqb x LF
  | _ => false
  end.

(** The closing fence at the current position, in closed form. *)
Definition fence_close_here (s : str) : option (nat * groups) :=
  let t := skip_cls ClsSpace s in
  if lits_match false (txt "```") t && at_end (drop 3 t)
  then Some (length s - length (drop 3 t), [])
  else None.

Lemma space_not_backtick x : is_space x = true -> ascii_eqb backtick x = false.
Proof.
  destruct x as [[] [] [] [] [] [] [] []]; vm_compute; congruence.
Qed.

Lemma match_here_fence_close prev s :
  match_here false fence_close_re prev s = fence_close_here s.
Proof.
  unfold match_here, fence_close_re, fence_close_here.
  rewrite rmatch_seq. cbn [rmatch].
  rewrite star_loop_greedy.
  - change (RLits (txt "```")) with (RLits (backtick :: txt "``")).
    rewrite rmatch_lits.
    change (backtick :: txt "``") with (txt "```").
    destruct (lits_match false (txt "```") (skip_cls ClsSpace s)); [|reflexivity].
    change (length (txt "``")) with 2. cbn [andb].
    unfold at_end.
    destruct (drop 3 (skip_cls ClsSpace s)) as [|x [|y u]]; try reflexivity.
    destruct (ascii_eqb x LF); reflexivity.
  - intros p x s' Hx.
    change (RLits (txt "```")) with (RLits (backtick :: txt "``")).
    rewrite rmatch_lits. simpl in Hx.
    change (lits_match false (backtick :: txt "``") (x :: s'))
      with (lit_matches false backtick x && lits_match false (txt "``") s').
    unfold lit_matches. rewrite (space_not_backtick x Hx). reflexivity.
Qed.

(** The part of the [FROM]/[JOIN] pattern after the keyword: one or more
    [\s], then group 2. *)
Definition after_keyword_re : regex :=
  RSeq (RPlus ClsSpace) (RGroup 2 (RSeq (RCls ClsIdentStart) (RStar ClsWord))).

Definition after_keyword (s1 : str) (g1 : groups) : option mresult :=
  match s1 with
  | x :: s1' =>
      if is_space x then
        let s2 := skip_cls ClsSpace s1' in
        match s2 with
        | y :: s3 =>
            if is_ident_start y
            then Some (skip_cls ClsWord s3,
                       (2, take (length s2 - length (skip_cls ClsWord s3)) s2) :: g1)
            else None
        | [] => None
        end
      else None
  | [] => None
  end.

Lemma space_not_ident_start x : is_space x = true -> is_ident_start x = false.
Proof.
  destruct x as [[] [] [] [] [] [] [] []]; vm_compute; congruence.
Qed.

Lemma rmatch_after_keyword p s1 g1 :
  rmatch true after_keyword_re p s1 g1 (fun _ s' g => Some (s', g))
  = after_keyword s1 g1.
Proof.
  unfold after_keyword_re, after_keyword. rewrite rmatch_seq. cbn [rmatch].
  destruct s1 as [|x s1']; [reflexivity|].
  cbn [in_cls]. destruct (is_space x); [|reflexivity].
  rewrite star_loop_greedy.
  - destruct (skip_cls ClsSpace s1') as [|y s3]; [reflexivity|].
    cbn [in_cls]. destruct (is_ident_start y); [|reflexivity].
    rewrite star_loop_total by (intros q s' H; discriminate).
    reflexivity.
  - intros q y s' Hy. cbn [in_cls] in *.
    rewrite (space_not_ident_start y Hy). reflexivity.
Qed.

(** The [FROM]/[JOIN] pattern at the current position, in closed form. *)
Definition from_join_here (prev : option ascii) (s : str) : option (nat * groups) :=
  if xorb (is_word_opt prev) (is_word_opt (head s)) then
    if lits_match true (txt "FROM") s || lits_match true (txt "JOIN") s then
      match after_keyword (drop 4 s) [(1, take (length s - length (drop 4 s)) s)] with
      | Some (s', g) => Some (length s - length s', g)
      | None => None
      end
    else None
  else None.

Lemma from_excludes_join s :
  lits_match true (txt "FROM") s = true -> lits_match true (txt "JOIN") s = false.
Proof.
  destruct s as [|x s]; [discriminate|].
  change (lits_match true (txt "FROM") (x :: s))
    with (lit_matches true "F"%char x && lits_match true (txt "ROM") s).
  change (lits_match true (txt "JOIN") (x :: s))
    with (lit_matches true "J"%char x && lits_match true (txt "OIN") s).
  intros H. apply andb_true_iff in H as [H _].
  replace (lit_matches true "J"%char x) with false; [reflexivity|].
  revert H. destruct x as [[] [] [] [] [] [] [] []]; vm_compute; congruence.
Qed.

Lemma match_here_from_join prev s :
  match_here true from_join_re prev s = from_join_here prev s.
Proof.
  unfold match_here, from_join_re, from_join_here.
  fold after_keyword_re.
  rewrite rmatch_seq. cbn [rmatch].
  destruct (xorb (is_word_opt prev) (is_word_opt (head s))); [|reflexivity].
  change (RLits (txt "FROM")) with (RLits ("F"%char :: txt "ROM")).
  change (RLits (txt "JOIN")) with (RLits ("J"%char :: txt "OIN")).
  rewrite !rmatch_lits.
  change ("F"%char :: txt "ROM") with (txt "FROM").
  change ("J"%char :: txt "OIN") with (txt "JOIN").
  change (length (txt "ROM")) with 3. change (length (txt "OIN")) with 3.
  rewrite !rmatch_after_keyword.
  destruct (lits_match true (txt "FROM") s) eqn:HF.
  - rewrite (from_excludes_join s HF). cbn [orb].
    destruct (after_keyword _ _) as [[s' g]|]; reflexivity.
  - cbn [orb]. destruct (lits_match true (txt "JOIN") s); [|reflexivity].
    destruct (after_keyword _ _) as [[s' g]|]; reflexivity.
Qed.

(** ** Whitespace around a text *)

Definition all_space (s : str) : bool := forallb is_space s.

Lemma lstrip_all_space s : all_space s = true -> lstrip s = [].
Proof.
  induction s as [|c s IH]; simpl; [reflexivity|].
  intros H. apply andb_true_iff in H as [Hc Hs]. rewrite Hc. apply IH, Hs.
Qed.

Lemma lstrip_app_space l s : all_space l = true -> lstrip (l ++ s) = lstrip s.
Proof.
  induction l as [|c l IH]; simpl; [reflexivity|].
  intros H. apply andb_true_iff in H as [Hc Hl]. rewrite Hc. apply IH, Hl.
Qed.

Lemma lstrip_app_keep a b :
  all_space a = false -> lstrip (a ++ b) = lstrip a ++ b.
Proof.
  induction a as [|c a IH]; simpl; [discriminate|].
  destruct (is_space c); simpl; [exact IH|reflexivity].
Qed.

Lemma lstrip_idem s : lstrip (lstrip s) = lstrip s.
Proof.
  induction s as [|c s IH]; simpl; [reflexivity|].
  destruct (is_space c) eqn:Hc; [exact IH|]. simpl. rewrite Hc. reflexivity.
Qed.

Lemma all_space_app a b : all_space (a ++ b) = all_space a && all_space b.
Proof. unfold all_space. apply forallb_app. Qed.

Lemma all_space_rev s : all_space (rev s) = all_space s.
Proof.
  induction s as [|c s IH]; simpl; [reflexivity|].
  rewrite all_space_app, IH. simpl. rewrite andb_true_r. apply andb_comm.
Qed.

Lemma rstrip_all_space s : all_space s = true -> rstrip s = [].
Proof.
  intros H. unfold rstrip. rewrite lstrip_all_space; [reflexivity|].
  rewrite all_space_rev. exact H.
Qed.

Lemma rstrip_app_space s r : all_space r = true -> rstrip (s ++ r) = rstrip s.
Proof.
  intros H. unfold rstrip. rewrite rev_app_distr.
  rewrite lstrip_app_space; [reflexivity|]. rewrite all_space_rev. exact H.
Qed.

Lemma rstrip_cons c s :
  rstrip (c :: s) = if all_space (c :: s) then [] else c :: rstrip s.
Proof.
  destruct (all_space (c :: s)) eqn:Hall; [apply rstrip_all_space, Hall|].
  unfold rstrip. simpl rev.
  destruct (all_space s) eqn:Hs.
  - rewrite lstrip_app_space by (rewrite all_space_rev; exact Hs).
    rewrite (lstrip_all_space (rev s)) by (rewrite all_space_rev; exact Hs).
    simpl in Hall. rewrite Hs, andb_true_r in Hall. simpl. rewrite Hall. reflexivity.
  - rewrite lstrip_app_keep by (rewrite all_space_rev; exact Hs).
    rewrite rev_app_distr. reflexivity.
Qed.

Lemma all_space_lstrip s : all_space s = false -> all_space (lstrip s) = false.
Proof.
  induction s as [|c s IH]; simpl; [discriminate|].
  destruct (is_space c) eqn:Hc; simpl; [exact IH|]. rewrite Hc. reflexivity.
Qed.

Lemma strip_all_space s : all_space s = true -> strip s = [].
Proof. intros H. unfold strip. rewrite lstrip_all_space by exact H. reflexivity. Qed.

(** Whitespace on either side does not change the stripped text. *)
Lemma strip_padded l s r :
  all_space l = true -> all_space r = true -> strip (l ++ s ++ r) = strip s.
Proof.
  intros Hl Hr. unfold strip. rewrite lstrip_app_space by exact Hl.
  destruct (all_space s) eqn:Hs.
  - rewrite (lstrip_all_space (s ++ r)) by (rewrite all_space_app, Hs, Hr; reflexivity).
    rewrite (lstrip_all_space s) by exact Hs. reflexivity.
  - rewrite lstrip_app_keep by exact Hs. apply rstrip_app_space, Hr.
Qed.

Lemma strip_idem s : strip (strip s) = strip s.
Proof.
  unfold strip.
  assert (H : forall t, lstrip t = t -> lstrip (rstrip t) = rstrip t).
  { intros t. induction t as [|c t IH]; [reflexivity|].
    rewrite rstrip_cons. destruct (all_space (c :: t)); [reflexivity|].
    simpl. destruct (is_space c) eqn:Hc; [|reflexivity].
    intros Heq. exfalso.
    assert (Hlen : length (lstrip t) <= length t).
    { rewrite <- skip_cls_space. apply skip_cls_length. }
    rewrite Heq in Hlen. simpl in Hlen. lia. }
  rewrite (H (lstrip s) (lstrip_idem s)).
  unfold rstrip. rewrite rev_involutive, lstrip_idem. reflexivity.
Qed.

(** A text is its stripped text between two runs of whitespace. *)
Lemma strip_decompose s :
  exists l r, all_space l = true /\ all_space r = true /\ s = l ++ strip s ++ r.
Proof.
  assert (Hl : forall t, exists l, all_space l = true /\ t = l ++ lstrip t).
  { induction t as [|c t [l [Hl Ht]]]; [exists []; split; reflexivity|].
    simpl. destruct (is_space c) eqn:Hc.
    - exists (c :: l). simpl. rewrite Hc, Hl. split; [reflexivity|]. congruence.
    - exists []. split; reflexivity. }
  destruct (Hl s) as (l & Hlsp & Hs).
  destruct (Hl (rev (lstrip s))) as (r & Hrsp & Hr).
  exists l, (rev r). rewrite all_space_rev. repeat split; try assumption.
  unfold strip, rstrip. rewrite <- rev_app_distr, <- Hr, rev_involutive. exact Hs.
Qed.

(** ** [re.sub] on the fence patterns *)

Lemma sub_from_drop_all ignorecase r repl : forall s n prev,
  length s <= n -> sub_from ignorecase r repl n prev s = [].
Proof.
  induction s as [|x s IH]; intros n prev Hn; [reflexivity|].
  destruct n as [|n]; simpl in *; [lia|]. apply IH. lia.
Qed.

Lemma sub_from_skip ignorecase r repl : forall s n prev,
  sub_from ignorecase r repl n prev s
  = sub_from ignorecase r repl 0
      (match last (take n s) with Some c => Some c | None => prev end)
      (drop n s).
Proof.
  induction s as [|x s IH]; intros n prev.
  - destruct n; reflexivity.
  - destruct n as [|n]; [reflexivity|].
    simpl sub_from at 1. rewrite IH. simpl take. simpl drop.
    destruct (take n s) as [|y u] eqn:Ht; [reflexivity|].
    change (last (x :: y :: u)) with (last (y :: u)).
    destruct (last (y :: u)) eqn:Hl; [reflexivity|].
    apply last_None in Hl. discriminate.
Qed.

Lemma drop_skip_cls k s :
  drop (length s - length (skip_cls k s)) s = skip_cls k s.
Proof.
  induction s as [|x s IH]; [reflexivity|]. simpl skip_cls.
  destruct (in_cls k x).
  - pose proof (skip_cls_length k s).
    replace (length (x :: s) - length (skip_cls k s))
      with (S (length s - length (skip_cls k s))) by (simpl; lia).
    exact IH.
  - rewrite Nat.sub_diag. reflexivity.
Qed.

Lemma contains_cons_false needle c s :
  contains needle (c :: s) = false ->
  startswith needle (c :: s) = false /\ contains needle s = false.
Proof. simpl. intros H. apply orb_false_iff in H. exact H. Qed.

Lemma lits_match_exact l s : lits_match false l s = startswith l s.
Proof.
  revert s. induction l as [|c l IH]; intros s; [reflexivity|].
  destruct s as [|x s]; [reflexivity|]. simpl. rewrite IH. reflexivity.
Qed.

Lemma backtick_literal x : lit_matches true backtick x = ascii_eqb backtick x.
Proof. destruct x as [[] [] [] [] [] [] [] []]; reflexivity. Qed.

Lemma lits_match_cons ignorecase c l x s :
  lits_match ignorecase (c :: l) (x :: s)
  = lit_matches ignorecase c x && lits_match ignorecase l s.
Proof. reflexivity. Qed.

Lemma backtick_eq x : ascii_eqb backtick x = true -> x = backtick.
Proof. intros H. apply Ascii.eqb_eq in H. congruence. Qed.

(** The opening fence needs three backticks followed by another
    character. *)
Lemma fence_open_shape s :
  lits_match true (txt "```sql") s = true ->
  exists d u, s = backtick :: backtick :: backtick :: d :: u
              /\ ascii_eqb backtick d = false.
Proof.
  change (txt "```sql")
    with (backtick :: backtick :: backtick :: "s"%char :: txt "ql").
  destruct s as [|a [|b [|c [|d u]]]]; try discriminate;
    rewrite ?lits_match_cons, ?backtick_literal; intros H.
  - destruct (ascii_eqb backtick a); discriminate.
  - destruct (ascii_eqb backtick a); [|discriminate].
    destruct (ascii_eqb backtick b); discriminate.
  - destruct (ascii_eqb backtick a); [|discriminate].
    destruct (ascii_eqb backtick b); [|discriminate].
    destruct (ascii_eqb backtick c); discriminate.
  - destruct (ascii_eqb backtick a) eqn:Ha; [|discriminate].
    destruct (ascii_eqb backtick b) eqn:Hb; [|discriminate].
    destruct (ascii_eqb backtick c) eqn:Hc; [|discriminate].
    apply backtick_eq in Ha, Hb, Hc. subst a b c.
    exists d, u. split; [reflexivity|].
    cbn [andb] in H. apply andb_true_iff in H as [H _].
    revert H. destruct d as [[] [] [] [] [] [] [] []]; vm_compute; congruence.
Qed.

Lemma sub_from_step_none ignorecase r repl prev x s :
  match_here ignorecase r prev (x :: s) = None ->
  sub_from ignorecase r repl 0 prev (x :: s)
  = x :: sub_from ignorecase r repl 0 (Some x) s.
Proof. intros H. cbn [sub_from]. rewrite H. reflexivity. Qed.

Lemma sub_from_step_some ignorecase r repl prev x s n g :
  match_here ignorecase r prev (x :: s) = Some (S n, g) ->
  sub_from ignorecase r repl 0 prev (x :: s)
  = repl (take (S n) (x :: s)) g ++ sub_from ignorecase r repl n (Some x) s.
Proof. intros H. cbn [sub_from]. rewrite H. reflexivity. Qed.

Lemma startswith_fence_3 a b c u :
  ascii_eqb backtick a = true -> ascii_eqb backtick b = true ->
  ascii_eqb backtick c = true ->
  startswith (txt "```") (a :: b :: c :: u) = true.
Proof.
  intros Ha Hb Hc. apply backtick_eq in Ha, Hb, Hc. subst a b c. reflexivity.
Qed.

(** No opening fence starts in a text without three backticks in a row,
    also when the closing fence follows it. *)
Lemma fence_open_absent x tail :
  tail = [] \/ tail = txt "```" ->
  contains (txt "```") x = false ->
  fence_open_here (x ++ tail) = None.
Proof.
  intros Htail Hx. unfold fence_open_here.
  destruct (lits_match true (txt "```sql") (x ++ tail)) eqn:Hm; [|reflexivity].
  exfalso. apply fence_open_shape in Hm as (d & u & Heq & Hd).
  destruct x as [|a [|b [|c x']]].
  - destruct Htail as [-> | ->]; simpl in Heq; discriminate Heq.
  - destruct Htail as [-> | ->]; simpl in Heq; try discriminate Heq.
    injection Heq; intros; subst. discriminate Hd.
  - destruct Htail as [-> | ->]; simpl in Heq; try discriminate Heq.
    injection Heq; intros; subst. discriminate Hd.
  - injection Heq as -> -> -> _.
    apply contains_cons_false in Hx as [Hs _].
    rewrite startswith_fence_3 in Hs by reflexivity. discriminate.
Qed.

Lemma sub_open_id tail :
  tail = [] \/ tail = txt "```" ->
  forall x prev,
    contains (txt "```") x = false ->
    sub_from true fence_open_re erase 0 prev (x ++ tail) = x ++ tail.
Proof.
  intros Htail x. induction x as [|c x IH]; intros prev Hx.
  - destruct Htail as [-> | ->]; [reflexivity|].
    simpl app. rewrite sub_from_step_none by reflexivity.
    rewrite sub_from_step_none by reflexivity.
    rewrite sub_from_step_none by reflexivity. reflexivity.
  - simpl app. rewrite sub_from_step_none.
    + f_equal. apply IH. apply contains_cons_false in Hx as [_ Hx]. exact Hx.
    + rewrite match_here_fence_open.
      apply (fence_open_absent (c :: x) tail Htail Hx).
Qed.

Lemma contains_skip_cls needle k s :
  contains needle s = false -> contains needle (skip_cls k s) = false.
Proof.
  induction s as [|c s IH]; [intros H; exact H|].
  intros H. simpl skip_cls. destruct (in_cls k c); [|exact H].
  apply IH. apply contains_cons_false in H as [_ H]. exact H.
Qed.

Lemma contains_false_startswith needle s :
  contains needle s = false -> startswith needle s = false.
Proof.
  destruct s as [|c s]; simpl; intros H; apply orb_false_iff in H as [H _]; exact H.
Qed.

(** No closing fence is found in a text without three backticks in a row. *)
Lemma sub_close_id : forall x prev,
  contains (txt "```") x = false ->
  sub_from false fence_close_re erase 0 prev x = x.
Proof.
  induction x as [|c x IH]; intros prev Hx; [reflexivity|].
  rewrite sub_from_step_none.
  - f_equal. apply IH. apply contains_cons_false in Hx as [_ Hx]. exact Hx.
  - rewrite match_here_fence_close. unfold fence_close_here.
    rewrite lits_match_exact.
    rewrite (contains_false_startswith _ _ (contains_skip_cls _ ClsSpace _ Hx)).
    reflexivity.
Qed.

Lemma lstrip_nonempty s : all_space s = false -> lstrip s <> [].
Proof.
  induction s as [|c s IH]; simpl; [discriminate|].
  destruct (is_space c); simpl; [exact IH|discriminate].
Qed.

Lemma not_at_end_before_fence y :
  y <> [] ->
  lits_match false (txt "```") (y ++ txt "```") && at_end (drop 3 (y ++ txt "```"))
  = false.
Proof.
  intros Hy. apply andb_false_iff. right.
  destruct y as [|a [|b [|c y']]]; [congruence|reflexivity|reflexivity|].
  simpl. destruct y' as [|d [|e y'']]; reflexivity.
Qed.

(** The closing fence at the end of a text is removed together with the
    whitespace in front of it. *)
Lemma sub_close_fenced : forall x prev,
  sub_from false fence_close_re erase 0 prev (x ++ txt "```") = rstrip x.
Proof.
  induction x as [|c x IH]; intros prev.
  - reflexivity.
  - rewrite rstrip_cons.
    change ((c :: x) ++ txt "```") with (c :: (x ++ txt "```")).
    destruct (all_space (c :: x)) eqn:Hall.
    + rewrite (sub_from_step_some _ _ _ _ _ _ (length (x ++ txt "```")) []).
      * unfold erase. apply sub_from_drop_all. lia.
      * rewrite match_here_fence_close. unfold fence_close_here.
        rewrite skip_cls_space.
        change (c :: x ++ txt "```") with ((c :: x) ++ txt "```").
        rewrite lstrip_app_space by exact Hall. reflexivity.
    + rewrite sub_from_step_none; [rewrite IH; reflexivity|].
      rewrite match_here_fence_close. unfold fence_close_here.
      rewrite skip_cls_space.
      change (c :: x ++ txt "```") with ((c :: x) ++ txt "```").
      rewrite lstrip_app_keep by exact Hall.
      rewrite not_at_end_before_fence by (apply lstrip_nonempty; exact Hall).
      reflexivity.
Qed.

Lemma lits_match_sql_tag tag rest :
  lower tag = txt "sql" ->
  lits_match true (txt "```sql") (txt "```" ++ tag ++ rest) = true.
Proof.
  intros Htag. destruct tag as [|a [|b [|c [|d tag]]]]; try discriminate.
  injection Htag as Ha Hb Hc.
  change (lits_match true (txt "```sql") (txt "```" ++ [a; b; c] ++ rest))
    with (lit_matches true "s"%char a && (lit_matches true "q"%char b
          && (lit_matches true "l"%char c && true))).
  unfold lit_matches. rewrite Ha, Hb, Hc. reflexivity.
Qed.

Lemma contains_cons needle c s :
  contains needle (c :: s) = startswith needle (c :: s) || contains needle s.
Proof. reflexivity. Qed.

Lemma startswith_cons a p b s :
  startswith (a :: p) (b :: s) = ascii_eqb a b && startswith p s.
Proof. reflexivity. Qed.

Lemma fence_not_at_space c s :
  is_space c = true -> startswith (txt "```") (c :: s) = false.
Proof.
  intros Hc. change (txt "```") with [backtick; backtick; backtick].
  rewrite startswith_cons, (space_not_backtick c Hc). reflexivity.
Qed.

Lemma contains_fence_space r :
  all_space r = true -> contains (txt "```") r = false.
Proof.
  induction r as [|c r IH]; [reflexivity|]. intros Hr.
  apply andb_true_iff in Hr as [Hc Hr].
  rewrite contains_cons, (IH Hr), (fence_not_at_space c r Hc). reflexivity.
Qed.

Lemma startswith_fence_app_space x r :
  all_space r = true ->
  startswith (txt "```") x = false ->
  startswith (txt "```") (x ++ r) = false.
Proof.
  intros Hr. change (txt "```") with [backtick; backtick; backtick].
  destruct x as [|a [|b [|c x]]]; intros Hx.
  - destruct r as [|p r]; [reflexivity|].
    apply andb_true_iff in Hr as [Hp _].
    change ([] ++ p :: r) with (p :: r).
    rewrite startswith_cons, (space_not_backtick p Hp). reflexivity.
  - change ([a] ++ r) with (a :: r).
    rewrite startswith_cons. destruct (ascii_eqb backtick a); [|reflexivity].
    destruct r as [|p r]; [reflexivity|].
    apply andb_true_iff in Hr as [Hp _].
    rewrite startswith_cons, (space_not_backtick p Hp). reflexivity.
  - change ([a; b] ++ r) with (a :: b :: r).
    rewrite !startswith_cons. destruct (ascii_eqb backtick a); [|reflexivity].
    destruct (ascii_eqb backtick b); [|reflexivity].
    destruct r as [|p r]; [reflexivity|].
    apply andb_true_iff in Hr as [Hp _].
    rewrite startswith_cons, (space_not_backtick p Hp). reflexivity.
  - change ((a :: b :: c :: x) ++ r) with (a :: b :: c :: (x ++ r)).
    rewrite !startswith_cons in *. exact Hx.
Qed.

Lemma contains_fence_app_space x r :
  all_space r = true ->
  contains (txt "```") x = false ->
  contains (txt "```") (x ++ r) = false.
Proof.
  intros Hr. induction x as [|a x IH]; intros Hx.
  - apply contains_fence_space. exact Hr.
  - pose proof (contains_false_startswith _ _ Hx) as Hs.
    apply contains_cons_false in Hx as [_ Hx].
    change ((a :: x) ++ r) with (a :: (x ++ r)).
    rewrite contains_cons, (IH Hx), orb_false_r.
    apply (startswith_fence_app_space (a :: x) r Hr Hs).
Qed.

Definition fenced (tag ws1 raw ws2 : str) : str :=
  txt "```" ++ tag ++ ws1 ++ raw ++ ws2 ++ txt "```".

(** The opening fence is removed together with the whitespace after it. *)
Lemma sub_open_fenced tag ws1 raw ws2 :
  lower tag = txt "sql" ->
  all_space ws1 = true -> all_space ws2 = true ->
  contains (txt "```") raw = false ->
  re_sub true fence_open_re erase (fenced tag ws1 raw ws2)
  = lstrip (raw ++ ws2) ++ txt "```".
Proof.
  intros Htag H1 H2 Hraw.
  assert (Hno : contains (txt "```") (lstrip (raw ++ ws2)) = false).
  { rewrite <- skip_cls_space. apply contains_skip_cls.
    apply contains_fence_app_space; assumption. }
  assert (Hrest : lstrip (ws1 ++ raw ++ ws2 ++ txt "```")
                  = lstrip (raw ++ ws2) ++ txt "```").
  { rewrite lstrip_app_space by exact H1. rewrite app_assoc.
    destruct (all_space (raw ++ ws2)) eqn:Hall.
    - rewrite lstrip_app_space by exact Hall.
      rewrite (lstrip_all_space _ Hall). reflexivity.
    - apply lstrip_app_keep. exact Hall. }
  destruct tag as [|a [|b [|c [|d tag]]]]; try discriminate.
  unfold re_sub, fenced.
  set (t := ws1 ++ raw ++ ws2 ++ txt "```") in *.
  change (txt "```" ++ [a; b; c] ++ t)
    with (backtick :: backtick :: backtick :: a :: b :: c :: t).
  pose proof (skip_cls_length ClsSpace t) as Hlen.
  rewrite (sub_from_step_some _ _ _ _ _ _ (5 + (length t - length (lstrip t))) []).
  - assert (Hdrop : drop (5 + (length t - length (lstrip t)))
                      (backtick :: backtick :: a :: b :: c :: t)
                    = lstrip t).
    { change (drop (5 + (length t - length (lstrip t)))
                (backtick :: backtick :: a :: b :: c :: t))
        with (drop (length t - length (lstrip t)) t).
      rewrite <- skip_cls_space. apply drop_skip_cls. }
    change (erase (take (S (5 + (length t - length (lstrip t))))
                     (backtick :: backtick :: backtick :: a :: b :: c :: t)) [])
      with (@nil ascii).
    rewrite app_nil_l, sub_from_skip, Hdrop, Hrest.
    apply (sub_open_id (txt "```")); [right; reflexivity|exact Hno].
  - rewrite match_here_fence_open. unfold fence_open_here.
    change (backtick :: backtick :: backtick :: a :: b :: c :: t)
      with (txt "```" ++ [a; b; c] ++ t).
    rewrite (lits_match_sql_tag [a; b; c] t Htag).
    change (drop 6 (txt "```" ++ [a; b; c] ++ t)) with t.
    rewrite skip_cls_space in *. f_equal. f_equal.
    change (length (txt "```" ++ [a; b; c] ++ t)) with (6 + length t). lia.
Qed.

Lemma strip_fences_fenced_aux (tag ws1 raw ws2 : str) :
  lower tag = txt "sql" ->
  all_space ws1 = true -> all_space ws2 = true ->
  contains (txt "```") raw = false ->
  strip_fences (fenced tag ws1 raw ws2) = strip raw.
Proof.
  intros Htag H1 H2 Hraw. unfold strip_fences.
  rewrite (sub_open_fenced tag ws1 raw ws2 Htag H1 H2 Hraw).
  unfold re_sub. rewrite sub_close_fenced.
  change (rstrip (lstrip (raw ++ ws2))) with (strip (raw ++ ws2)).
  apply (strip_padded [] raw ws2); [reflexivity|exact H2].
Qed.

(** X1. A reply wrapped in code fences is unwrapped: for a text without
    three backticks in a row, an opening fence with the tag [sql] in any
    letter case, any whitespace after it, any whitespace before the closing
    fence, the two substitutions return the text with its leading and
    trailing whitespace removed. *)
Theorem strip_fences_fenced (tag ws1 raw ws2 : str) :
  lower tag = txt "sql" ->
  all_space ws1 = true -> all_space ws2 = true ->
  contains (txt "```") raw = false ->
  strip_fences (fenced tag ws1 raw ws2) = strip raw.
Proof. apply strip_fences_fenced_aux. Qed.

Lemma strip_fences_fenced_witness :
  strip_fences (txt "```SQL
  SELECT `amount` FROM orders
```") = txt "SELECT `amount` FROM orders".
Proof.
  apply (strip_fences_fenced (txt "SQL") (txt "
  ") (txt "SELECT `amount` FROM orders") (txt "
")); reflexivity.
Defined.

Lemma strip_fences_without_fence_aux (raw : str) :
  contains (txt "```") raw = false ->
  strip_fences raw = raw.
Proof.
  intros Hraw. unfold strip_fences, re_sub.
  pose proof (sub_open_id [] (or_introl eq_refl) raw None Hraw) as Hopen.
  rewrite app_nil_r in Hopen. rewrite Hopen.
  apply sub_close_id. exact Hraw.
Qed.

(** X2. The two substitutions leave a text without three backticks in a
    row as it is: a reply without fences passes unchanged. *)
Theorem strip_fences_without_fence (raw : str) :
  contains (txt "```") raw = false ->
  strip_fences raw = raw.
Proof. apply strip_fences_without_fence_aux. Qed.

Lemma strip_fences_without_fence_witness :
  strip_fences (txt "SELECT `amount` FROM orders ")
  = txt "SELECT `amount` FROM orders ".
Proof.
  apply (strip_fences_without_fence (txt "SELECT `amount` FROM orders ")).
  reflexivity.
Defined.

(** ** Whitespace around the text and the later steps *)

Lemma space_not_word x : is_space x = true -> is_word x = false.
Proof. destruct x as [[] [] [] [] [] [] [] []]; vm_compute; congruence. Qed.

Lemma lower_space x : is_space x = true -> lower_char x = x.
Proof. destruct x as [[] [] [] [] [] [] [] []]; vm_compute; congruence. Qed.

Lemma lower_is_space x : is_space (lower_char x) = is_space x.
Proof. destruct x as [[] [] [] [] [] [] [] []]; reflexivity. Qed.

Lemma eqb_space_false a x :
  is_space a = false -> is_space x = true -> ascii_eqb a x = false.
Proof.
  intros Ha Hx. destruct (ascii_eqb a x) eqn:H; [|reflexivity].
  apply Ascii.eqb_eq in H. congruence.
Qed.

Definition no_space (s : str) : bool := forallb (fun c => negb (is_space c)) s.

Lemma startswith_pad_r old : forall z r,
  no_space old = true -> all_space r = true ->
  startswith old (z ++ r) = startswith old z.
Proof.
  induction old as [|a old IH]; intros z r Hold Hr; [reflexivity|].
  apply andb_true_iff in Hold as [Ha Hold]. apply negb_true_iff in Ha.
  destruct z as [|y z].
  - destruct r as [|x r]; [reflexivity|].
    apply andb_true_iff in Hr as [Hx _].
    change ([] ++ x :: r) with (x :: r).
    rewrite startswith_cons, (eqb_space_false a x Ha Hx). reflexivity.
  - change ((y :: z) ++ r) with (y :: (z ++ r)).
    rewrite !startswith_cons, (IH z r Hold Hr). reflexivity.
Qed.

Lemma startswith_at_space a old c s :
  is_space a = false -> is_space c = true ->
  startswith (a :: old) (c :: s) = false.
Proof.
  intros Ha Hc. rewrite startswith_cons, (eqb_space_false a c Ha Hc). reflexivity.
Qed.

Lemma startswith_length old s :
  startswith old s = true -> length old <= length s.
Proof.
  revert s. induction old as [|a old IH]; intros s H; [simpl; lia|].
  destruct s as [|y s]; [discriminate|].
  rewrite startswith_cons in H. apply andb_true_iff in H as [_ H].
  specialize (IH s H). simpl. lia.
Qed.

Section ReplacePadding.

Variables (a : ascii) (old' new : str).
Hypothesis Hfirst : is_space a = false.
Hypothesis Hold : no_space old' = true.

Let old := a :: old'.

Lemma replace_pad_l l s :
  all_space l = true ->
  replace_from old new 0 (l ++ s) = l ++ replace_from old new 0 s.
Proof.
  induction l as [|c l IH]; intros Hl; [reflexivity|].
  apply andb_true_iff in Hl as [Hc Hl].
  change ((c :: l) ++ s) with (c :: (l ++ s)). cbn [replace_from].
  unfold old at 1. rewrite (startswith_at_space a old' c (l ++ s) Hfirst Hc).
  rewrite (IH Hl). reflexivity.
Qed.

Lemma replace_pad_r r :
  all_space r = true ->
  forall z skip, skip <= length z ->
    replace_from old new skip (z ++ r) = replace_from old new skip z ++ r.
Proof.
  intros Hr. induction z as [|y z IH]; intros skip Hskip.
  - simpl in Hskip. replace skip with 0 by lia.
    pose proof (replace_pad_l r [] Hr) as H. rewrite !app_nil_r in H. exact H.
  - change ((y :: z) ++ r) with (y :: (z ++ r)).
    destruct skip as [|n]; cbn [replace_from].
    + change (y :: z ++ r) with ((y :: z) ++ r).
      rewrite (startswith_pad_r old (y :: z) r); [|unfold old; simpl;
        rewrite Hfirst; exact Hold|exact Hr].
      destruct (startswith old (y :: z)) eqn:Hs.
      * apply startswith_length in Hs. simpl in Hs.
        rewrite IH by (simpl; lia). rewrite app_assoc. reflexivity.
      * rewrite IH by lia. reflexivity.
    + apply IH. simpl in Hskip. lia.
Qed.

Lemma replace_padded l s r :
  all_space l = true -> all_space r = true ->
  replace old new (l ++ s ++ r) = l ++ replace old new s ++ r.
Proof.
  intros Hl Hr. unfold replace.
  rewrite (replace_pad_l l (s ++ r) Hl).
  rewrite (replace_pad_r r Hr s 0) by lia. reflexivity.
Qed.

End ReplacePadding.

Lemma substitute_placeholder_padded l s r db_name :
  all_space l = true -> all_space r = true ->
  substitute_placeholder (l ++ s ++ r) db_name
  = l ++ substitute_placeholder s db_name ++ r.
Proof.
  intros Hl Hr. unfold substitute_placeholder.
  change (txt "'your_database_name'") with ("'"%char :: txt "your_database_name'").
  apply replace_padded; [reflexivity|reflexivity|exact Hl|exact Hr].
Qed.

Lemma contains_pad_l a needle l s :
  is_space a = false -> all_space l = true ->
  contains (a :: needle) (l ++ s) = contains (a :: needle) s.
Proof.
  intros Ha. induction l as [|c l IH]; intros Hl; [reflexivity|].
  apply andb_true_iff in Hl as [Hc Hl].
  change ((c :: l) ++ s) with (c :: (l ++ s)).
  rewrite contains_cons, (startswith_at_space a needle c (l ++ s) Ha Hc).
  apply IH. exact Hl.
Qed.

Lemma contains_pad_r a needle r :
  is_space a = false -> no_space needle = true -> all_space r = true ->
  forall z, contains (a :: needle) (z ++ r) = contains (a :: needle) z.
Proof.
  intros Ha Hn Hr. induction z as [|y z IH].
  - pose proof (contains_pad_l a needle r [] Ha Hr) as H.
    rewrite app_nil_r in H. exact H.
  - change ((y :: z) ++ r) with (y :: (z ++ r)).
    rewrite !contains_cons, IH.
    change (y :: z ++ r) with ((y :: z) ++ r).
    rewrite (startswith_pad_r (a :: needle) (y :: z) r); [reflexivity| |exact Hr].
    simpl. rewrite Ha. exact Hn.
Qed.

Lemma lower_all_space l : all_space l = true -> lower l = l.
Proof.
  induction l as [|c l IH]; intros Hl; [reflexivity|].
  apply andb_true_iff in Hl as [Hc Hl].
  change (lower (c :: l)) with (lower_char c :: lower l).
  rewrite (lower_space c Hc), (IH Hl). reflexivity.
Qed.

Lemma mentions_padded l s r :
  all_space l = true -> all_space r = true ->
  mentions_information_schema (l ++ s ++ r) = mentions_information_schema s.
Proof.
  intros Hl Hr. unfold mentions_information_schema, lower.
  rewrite !map_app. fold (lower l). fold (lower r). fold (lower s).
  rewrite (lower_all_space l Hl), (lower_all_space r Hr).
  change (txt "information_schema") with ("i"%char :: txt "nformation_schema").
  rewrite contains_pad_l by (reflexivity || exact Hl).
  apply contains_pad_r; [reflexivity|reflexivity|exact Hr].
Qed.

(** *** The [FROM]/[JOIN] pattern and whitespace *)

Lemma letter_not_space c x :
  is_ident_start c = true -> is_space x = true -> lit_matches true c x = false.
Proof.
  intros Hc Hx. unfold lit_matches. rewrite (lower_space x Hx).
  apply eqb_space_false; [|exact Hx].
  revert Hc. destruct c as [[] [] [] [] [] [] [] []]; vm_compute; congruence.
Qed.

Definition letters (l : str) : bool := forallb is_ident_start l.

Lemma lits_match_at_space c l x s :
  is_ident_start c = true -> is_space x = true ->
  lits_match true (c :: l) (x :: s) = false.
Proof.
  intros Hc Hx. rewrite lits_match_cons, (letter_not_space c x Hc Hx). reflexivity.
Qed.

Lemma lits_match_pad_r l : forall z r,
  letters l = true -> all_space r = true ->
  lits_match true l (z ++ r) = lits_match true l z.
Proof.
  induction l as [|c l IH]; intros z r Hl Hr; [reflexivity|].
  apply andb_true_iff in Hl as [Hc Hl].
  destruct z as [|y z].
  - destruct r as [|x r]; [reflexivity|].
    apply andb_true_iff in Hr as [Hx _].
    change ([] ++ x :: r) with (x :: r).
    rewrite (lits_match_at_space c l x r Hc Hx). reflexivity.
  - change ((y :: z) ++ r) with (y :: (z ++ r)).
    rewrite !lits_match_cons, (IH z r Hl Hr). reflexivity.
Qed.

Lemma lits_match_length ignorecase l s :
  lits_match ignorecase l s = true -> length l <= length s.
Proof.
  revert s. induction l as [|c l IH]; intros s H; [simpl; lia|].
  destruct s as [|y s]; [discriminate|].
  rewrite lits_match_cons in H. apply andb_true_iff in H as [_ H].
  specialize (IH s H). simpl. lia.
Qed.

Lemma skip_cls_pad_r k r :
  (forall x, is_space x = true -> in_cls k x = false) ->
  all_space r = true ->
  forall s, skip_cls k (s ++ r) = skip_cls k s ++ r.
Proof.
  intros Hk Hr. induction s as [|y s IH].
  - destruct r as [|x r]; [reflexivity|].
    apply andb_true_iff in Hr as [Hx _].
    simpl. rewrite (Hk x Hx). reflexivity.
  - change ((y :: s) ++ r) with (y :: (s ++ r)). simpl.
    destruct (in_cls k y); [exact IH|reflexivity].
Qed.

Lemma after_keyword_pad_r s1 g r :
  all_space r = true ->
  after_keyword (s1 ++ r) g
  = match after_keyword s1 g with
    | Some (s', g') => Some (s' ++ r, g')
    | None => None
    end.
Proof.
  intros Hr. unfold after_keyword.
  destruct s1 as [|x s1].
  - destruct r as [|x r]; [reflexivity|].
    pose proof Hr as Hr'. apply andb_true_iff in Hr' as [Hx Hr'].
    cbn [app]. rewrite Hx.
    rewrite skip_cls_space, (lstrip_all_space r Hr'). reflexivity.
  - cbn [app]. destruct (is_space x); [|reflexivity].
    rewrite !skip_cls_space.
    destruct (all_space s1) eqn:Hs1.
    + rewrite (lstrip_all_space (s1 ++ r))
        by (rewrite all_space_app, Hs1, Hr; reflexivity).
      rewrite (lstrip_all_space s1 Hs1). reflexivity.
    + rewrite (lstrip_app_keep s1 r Hs1).
      pose proof (lstrip_nonempty s1 Hs1) as Hne.
      destruct (lstrip s1) as [|y s3]; [congruence|].
      cbn [app]. destruct (is_ident_start y); [|reflexivity].
      rewrite (skip_cls_pad_r ClsWord r (fun x Hx => space_not_word x Hx) Hr s3).
      pose proof (skip_cls_length ClsWord s3) as Hlen.
      f_equal. f_equal. f_equal. f_equal.
      change (y :: s3 ++ r) with ((y :: s3) ++ r).
      rewrite !length_app.
      replace (length (y :: s3) + length r - (length (skip_cls ClsWord s3) + length r))
        with (length (y :: s3) - length (skip_cls ClsWord s3)) by lia.
      apply take_app_le. simpl. lia.
Qed.

Lemma from_join_here_pad_r prev z r :
  all_space r = true ->
  from_join_here prev (z ++ r) = from_join_here prev z.
Proof.
  intros Hr. unfold from_join_here.
  assert (Hhead : is_word_opt (head (z ++ r)) = is_word_opt (head z)).
  { destruct z as [|y z]; [|reflexivity].
    destruct r as [|x r]; [reflexivity|].
    apply andb_true_iff in Hr as [Hx _]. simpl. apply space_not_word, Hx. }
  rewrite Hhead.
  rewrite !(lits_match_pad_r _ z r) by (reflexivity || exact Hr).
  destruct (xorb _ _); [|reflexivity].
  destruct (lits_match true (txt "FROM") z || lits_match true (txt "JOIN") z) eqn:Hk;
    [|reflexivity].
  assert (Hlen : 4 <= length z).
  { apply orb_true_iff in Hk as [Hk|Hk]; apply lits_match_length in Hk; exact Hk. }
  rewrite (drop_app_le z r 4 Hlen).
  assert (Hg : take (length (z ++ r) - length (drop 4 z ++ r)) (z ++ r)
               = take (length z - length (drop 4 z)) z).
  { rewrite !length_app, !length_drop.
    replace (length z + length r - (length z - 4 + length r)) with 4 by lia.
    replace (length z - (length z - 4)) with 4 by lia.
    apply take_app_le. exact Hlen. }
  rewrite Hg, (after_keyword_pad_r _ _ r Hr).
  destruct (after_keyword _ _) as [[s' g]|]; [|reflexivity].
  rewrite !length_app. f_equal. f_equal. lia.
Qed.

Lemma from_join_here_at_space prev c s :
  is_space c = true -> from_join_here prev (c :: s) = None.
Proof.
  intros Hc. unfold from_join_here.
  change (txt "FROM") with ("F"%char :: txt "ROM").
  change (txt "JOIN") with ("J"%char :: txt "OIN").
  rewrite !(lits_match_at_space _ _ c s) by (reflexivity || exact Hc).
  destruct (xorb _ _); reflexivity.
Qed.

Lemma from_join_here_prev p1 p2 s :
  is_word_opt p1 = is_word_opt p2 -> from_join_here p1 s = from_join_here p2 s.
Proof. intros H. unfold from_join_here. rewrite H. reflexivity. Qed.

Lemma from_join_here_length prev s n g :
  from_join_here prev s = Some (n, g) -> n <= length s.
Proof.
  unfold from_join_here. destruct (xorb _ _); [|discriminate].
  destruct (_ || _); [|discriminate].
  destruct (after_keyword _ _) as [[s' g']|]; [|discriminate].
  intros [= <- _]. lia.
Qed.

Section QualifyPadding.

Variable repl : str -> groups -> str.

Let qsub := sub_from true from_join_re repl.

Lemma qualify_prev p1 p2 s :
  is_word_opt p1 = is_word_opt p2 -> qsub 0 p1 s = qsub 0 p2 s.
Proof.
  intros H. destruct s as [|x s]; [reflexivity|].
  unfold qsub. cbn [sub_from].
  rewrite !match_here_from_join, (from_join_here_prev p1 p2 _ H). reflexivity.
Qed.

Lemma qualify_pad_l s : forall l prev,
  all_space l = true -> is_word_opt prev = false ->
  qsub 0 prev (l ++ s) = l ++ qsub 0 None s.
Proof.
  induction l as [|c l IH]; intros prev Hl Hprev.
  - apply qualify_prev. exact Hprev.
  - apply andb_true_iff in Hl as [Hc Hl].
    change ((c :: l) ++ s) with (c :: (l ++ s)).
    unfold qsub. rewrite sub_from_step_none.
    + fold qsub. rewrite (IH (Some c) Hl); [reflexivity|].
      apply space_not_word, Hc.
    + rewrite match_here_from_join. apply from_join_here_at_space, Hc.
Qed.

Lemma qualify_pad_r r :
  all_space r = true ->
  forall z skip prev, skip <= length z ->
    qsub skip prev (z ++ r) = qsub skip prev z ++ r.
Proof.
  intros Hr. induction z as [|y z IH]; intros skip prev Hskip.
  - simpl in Hskip. replace skip with 0 by lia.
    destruct r as [|x r]; [reflexivity|].
    pose proof Hr as Hr'. apply andb_true_iff in Hr' as [Hx Hr'].
    change ([] ++ x :: r) with (x :: r).
    unfold qsub. rewrite sub_from_step_none
      by (rewrite match_here_from_join; apply from_join_here_at_space, Hx).
    fold qsub.
    pose proof (qualify_pad_l [] r (Some x) Hr' (space_not_word x Hx)) as H.
    rewrite app_nil_r in H. rewrite H.
    unfold qsub. cbn [sub_from app]. rewrite app_nil_r. reflexivity.
  - change ((y :: z) ++ r) with (y :: (z ++ r)).
    destruct skip as [|n].
    + unfold qsub. cbn [sub_from]. fold qsub.
      rewrite !match_here_from_join.
      change (y :: z ++ r) with ((y :: z) ++ r).
      rewrite (from_join_here_pad_r prev (y :: z) r Hr).
      destruct (from_join_here prev (y :: z)) as [[[|n] g]|] eqn:Hm.
      * change ((y :: z) ++ r) with (y :: (z ++ r)).
        rewrite IH by lia. reflexivity.
      * apply from_join_here_length in Hm. simpl in Hm.
        rewrite IH by lia.
        rewrite (take_app_le (y :: z) r (S n)) by (simpl; lia).
        rewrite app_assoc. reflexivity.
      * change ((y :: z) ++ r) with (y :: (z ++ r)).
        rewrite IH by lia. reflexivity.
    + unfold qsub. cbn [sub_from]. fold qsub. apply IH. simpl in Hskip. lia.
Qed.

End QualifyPadding.

Lemma qualify_table_names_padded_aux (l s r db_name : str) :
  all_space l = true -> all_space r = true ->
  qualify_table_names (l ++ s ++ r) db_name
  = l ++ qualify_table_names s db_name ++ r.
Proof.
  intros Hl Hr. unfold qualify_table_names, re_sub.
  rewrite (qualify_pad_l _ (s ++ r) l None Hl eq_refl).
  rewrite (qualify_pad_r _ r Hr s 0 None) by lia. reflexivity.
Qed.

(** X3. Whitespace around a text stays where it is: qualification of a
    text between two runs of whitespace is the qualification of the text,
    between the same two runs. *)
Theorem qualify_table_names_padded (l s r db_name : str) :
  all_space l = true -> all_space r = true ->
  qualify_table_names (l ++ s ++ r) db_name
  = l ++ qualify_table_names s db_name ++ r.
Proof. apply qualify_table_names_padded_aux. Qed.

Lemma qualify_table_names_padded_witness :
  qualify_table_names (txt "
  SELECT 1 FROM orders
") (txt "shop") = txt "
  SELECT 1 FROM shop.orders
".
Proof.
  apply (qualify_table_names_padded (txt "
  ") (txt "SELECT 1 FROM orders") (txt "
") (txt "shop")); reflexivity.
Defined.

Lemma scan_lines_either lines todo : forall i t1 t2,
  scan_lines lines i todo t1 = scan_lines lines i todo t2
  \/ (scan_lines lines i todo t1 = t1 /\ scan_lines lines i todo t2 = t2).
Proof.
  induction todo as [|line todo IH]; intros i t1 t2; simpl.
  - right. split; reflexivity.
  - destruct (starts_statement line); [left; reflexivity|apply IH].
Qed.

(** The steps after fence stripping do not depend on the whitespace around
    the text. *)
Lemma sanitize_steps_stripped E raw db_name :
  let finish t :=
    qualify_table_names (substitute_placeholder (detect_boundary t) db_name) db_name in
  mentions_information_schema (finish (strip raw))
  = mentions_information_schema (finish raw)
  /\ strip (finish (strip raw)) = strip (finish raw)
  /\ sqlparse_parse E (strip (finish (strip raw)))
     = sqlparse_parse E (strip (finish raw)).
Proof.
  intros finish.
  assert (H : mentions_information_schema (finish (strip raw))
              = mentions_information_schema (finish raw)
              /\ strip (finish (strip raw)) = strip (finish raw)).
  { unfold finish, detect_boundary. rewrite strip_idem.
    destruct (scan_lines_either (splitlines (strip raw)) (splitlines (strip raw))
                0 (strip raw) raw) as [-> | [-> ->]]; [split; reflexivity|].
    destruct (strip_decompose raw) as (l & r & Hl & Hr & Hraw).
    rewrite Hraw at 2 4.
    rewrite (substitute_placeholder_padded l (strip raw) r db_name Hl Hr).
    rewrite (qualify_table_names_padded_aux l _ r db_name Hl Hr).
    split; [symmetry; apply mentions_padded; assumption|].
    symmetry. apply strip_padded; assumption. }
  destruct H as [Hm Hs]. repeat split; try assumption. rewrite Hs. reflexivity.
Qed.

(** X4. Wrapping a reply in code fences does not change what the
    sanitizer returns: for a text without three backticks in a row, an
    opening fence with the tag [sql] in any letter case and any whitespace
    inside the fences, the result (the statement or the error) is the one
    of the bare text. *)
Theorem sanitize_fenced (E : env) (tag ws1 raw ws2 db_name : str) :
  lower tag = txt "sql" ->
  all_space ws1 = true -> all_space ws2 = true ->
  contains (txt "```") raw = false ->
  sanitize E (fenced tag ws1 raw ws2) db_name = sanitize E raw db_name.
Proof.
  intros Htag H1 H2 Hraw. unfold sanitize, prepare.
  rewrite (strip_fences_fenced_aux tag ws1 raw ws2 Htag H1 H2 Hraw).
  rewrite (strip_fences_without_fence_aux raw Hraw).
  destruct (sanitize_steps_stripped E raw db_name) as (Hm & _ & Hp).
  cbv zeta in Hm, Hp. rewrite Hm, Hp. reflexivity.
Qed.

Lemma sanitize_fenced_witness :
  sanitize (quiet_env [] [] []) (txt "```sql
  VALUES (1);
```") (txt "shop")
  = sanitize (quiet_env [] [] []) (txt "  VALUES (1);") (txt "shop").
Proof.
  apply (sanitize_fenced (quiet_env [] [] []) (txt "sql") (txt "
") (txt "  VALUES (1);") (txt "
") (txt "shop")); reflexivity.
Defined.

(** ** What qualification does to a match *)

Lemma sub_from_ext ignorecase r (repl1 repl2 : str -> groups -> str) :
  (forall prev s n g, match_here ignorecase r prev s = Some (n, g) ->
                      repl1 (take n s) g = repl2 (take n s) g) ->
  forall s skip prev,
    sub_from ignorecase r repl1 skip prev s = sub_from ignorecase r repl2 skip prev s.
Proof.
  intros Hrepl. induction s as [|x s IH]; intros skip prev; [reflexivity|].
  destruct skip as [|n]; cbn [sub_from]; [|apply IH].
  destruct (match_here ignorecase r prev (x :: s)) as [[[|n] g]|] eqn:Hm.
  - rewrite IH. reflexivity.
  - rewrite (Hrepl _ _ _ _ Hm), IH. reflexivity.
  - rewrite IH. reflexivity.
Qed.

Lemma take_skip_cls k s :
  forallb (in_cls k) (take (length s - length (skip_cls k s)) s) = true.
Proof.
  induction s as [|x s IH]; [reflexivity|]. simpl skip_cls.
  destruct (in_cls k x) eqn:Hx.
  - pose proof (skip_cls_length k s).
    replace (length (x :: s) - length (skip_cls k s))
      with (S (length s - length (skip_cls k s))) by (simpl; lia).
    simpl. rewrite Hx. exact IH.
  - rewrite Nat.sub_diag. reflexivity.
Qed.

Definition dot : ascii := "."%char.

Lemma contains_dot_false t :
  forallb (fun x => negb (ascii_eqb dot x)) t = true ->
  contains [dot] t = false.
Proof.
  induction t as [|x t IH]; [reflexivity|]. intros H.
  apply andb_true_iff in H as [Hx Ht]. apply negb_true_iff in Hx.
  rewrite contains_cons, startswith_cons, Hx, (IH Ht). reflexivity.
Qed.

Lemma word_not_dot x : is_word x = true -> negb (ascii_eqb dot x) = true.
Proof. destruct x as [[] [] [] [] [] [] [] []]; vm_compute; congruence. Qed.

Lemma ident_start_not_dot x : is_ident_start x = true -> negb (ascii_eqb dot x) = true.
Proof. destruct x as [[] [] [] [] [] [] [] []]; vm_compute; congruence. Qed.

Lemma forallb_imp {A} (f g : A -> bool) l :
  (forall x, f x = true -> g x = true) ->
  forallb f l = true -> forallb g l = true.
Proof.
  intros Hfg. induction l as [|x l IH]; [reflexivity|]. cbn [forallb].
  intros H. apply andb_true_iff in H as [Hx Hl].
  rewrite (Hfg x Hx), (IH Hl). reflexivity.
Qed.

(** The identifier captured as group 2 holds no dot. *)
Lemma from_join_group2_no_dot prev s n g :
  from_join_here prev s = Some (n, g) -> contains [dot] (group 2 g) = false.
Proof.
  unfold from_join_here. destruct (xorb _ _); [|discriminate].
  destruct (_ || _); [|discriminate].
  unfold after_keyword.
  destruct (drop 4 s) as [|x s1]; [discriminate|].
  destruct (is_space x); [|discriminate].
  destruct (skip_cls ClsSpace s1) as [|y s3]; [discriminate|].
  destruct (is_ident_start y) eqn:Hy; [|discriminate].
  intros [= _ <-]. cbn [group Nat.eqb].
  pose proof (skip_cls_length ClsWord s3) as Hlen.
  replace (S (length s3) - length (skip_cls ClsWord s3))
    with (S (length s3 - length (skip_cls ClsWord s3))) by lia.
  apply contains_dot_false. rewrite firstn_cons. cbn [forallb].
  rewrite (ident_start_not_dot y Hy). cbn [andb].
  apply (forallb_imp (in_cls ClsWord)); [exact word_not_dot|].
  apply take_skip_cls.
Qed.

(** The replacement without the guard for qualified names. *)
Definition always_qualify (db_name : str) (whole : str) (g : groups) : str :=
  group 1 g ++ txt " " ++ db_name ++ txt "." ++ group 2 g.

Lemma qualify_always (sql_text db_name : str) :
  qualify_table_names sql_text db_name
  = re_sub true from_join_re (always_qualify db_name) sql_text.
Proof.
  unfold qualify_table_names, re_sub. apply sub_from_ext.
  intros prev s n g Hm. rewrite match_here_from_join in Hm.
  unfold qualify_repl, always_qualify.
  change (txt ".") with [dot].
  rewrite (from_join_group2_no_dot prev s n g Hm). reflexivity.
Qed.

(** X5. The guard of [repl] for names that hold a dot never fires: on
    every text, [qualify_table_names] is the substitution that rewrites
    every match to the keyword, one space, the database name, a dot and the
    identifier. *)
Theorem qualify_table_names_guard_is_dead (sql_text db_name : str) :
  qualify_table_names sql_text db_name
  = re_sub true from_join_re (always_qualify db_name) sql_text.
Proof. apply qualify_always. Qed.

Lemma keyword_letter_is_word c x :
  is_ident_start c = true -> lit_matches true c x = true -> is_word x = true.
Proof.
  unfold lit_matches. intros Hc H. apply Ascii.eqb_eq in H.
  assert (Hx : is_ident_start (lower_char x) = true).
  { rewrite <- H. revert Hc.
    destruct c as [[] [] [] [] [] [] [] []]; vm_compute; congruence. }
  revert Hx. destruct x as [[] [] [] [] [] [] [] []]; vm_compute; congruence.
Qed.

Lemma lits_match_app ignorecase l : forall z t,
  length l <= length z ->
  lits_match ignorecase l (z ++ t) = lits_match ignorecase l z.
Proof.
  induction l as [|c l IH]; intros z t Hlen; [reflexivity|].
  destruct z as [|y z]; [simpl in Hlen; lia|].
  change ((y :: z) ++ t) with (y :: (z ++ t)).
  rewrite !lits_match_cons, IH by (simpl in Hlen; lia). reflexivity.
Qed.

Lemma skip_cls_app_all k a b :
  forallb (in_cls k) a = true -> skip_cls k (a ++ b) = skip_cls k b.
Proof.
  induction a as [|x a IH]; [reflexivity|]. cbn [forallb]. intros H.
  apply andb_true_iff in H as [Hx Ha].
  change ((x :: a) ++ b) with (x :: (a ++ b)). cbn [skip_cls].
  rewrite Hx. apply IH, Ha.
Qed.

Lemma skip_cls_stop k s :
  match head s with Some c => in_cls k c | None => false end = false ->
  skip_cls k s = s.
Proof.
  destruct s as [|c s]; [reflexivity|]. simpl. intros ->. reflexivity.
Qed.

(** No match starts at a character that is not a word character. *)
Lemma from_join_here_nonword prev s :
  is_word_opt (head s) = false -> from_join_here prev s = None.
Proof.
  intros Hs. unfold from_join_here. destruct (xorb _ _); [|reflexivity].
  destruct s as [|c s]; [reflexivity|]. simpl in Hs.
  change (txt "FROM") with ("F"%char :: txt "ROM").
  change (txt "JOIN") with ("J"%char :: txt "OIN").
  rewrite !lits_match_cons.
  destruct (lit_matches true "F"%char c) eqn:HF.
  - apply keyword_letter_is_word in HF; [congruence|reflexivity].
  - destruct (lit_matches true "J"%char c) eqn:HJ; [|reflexivity].
    apply keyword_letter_is_word in HJ; [congruence|reflexivity].
Qed.

Lemma sub_from_nonword repl p1 p2 s :
  is_word_opt (head s) = false ->
  sub_from true from_join_re repl 0 p1 s = sub_from true from_join_re repl 0 p2 s.
Proof.
  intros Hs. destruct s as [|c s]; [reflexivity|].
  rewrite !sub_from_step_none
    by (rewrite match_here_from_join; apply from_join_here_nonword; exact Hs).
  reflexivity.
Qed.

Lemma ident_start_not_space y : is_ident_start y = true -> is_space y = false.
Proof. destruct y as [[] [] [] [] [] [] [] []]; vm_compute; congruence. Qed.

Definition is_keyword (kw : str) : bool :=
  (lits_match true (txt "FROM") kw || lits_match true (txt "JOIN") kw)
  && Nat.eqb (length kw) 4.

(** The match at a keyword followed by whitespace and an identifier. *)
Lemma from_join_here_keyword prev kw ws y rest post :
  is_keyword kw = true -> is_word_opt prev = false ->
  ws <> [] -> all_space ws = true ->
  is_ident_start y = true -> forallb is_word rest = true ->
  is_word_opt (head post) = false ->
  from_join_here prev (kw ++ ws ++ (y :: rest) ++ post)
  = Some (length (kw ++ ws ++ y :: rest), [(2, y :: rest); (1, kw)]).
Proof.
  intros Hkw Hprev Hws Hsp Hy Hrest Hpost.
  apply andb_true_iff in Hkw as [Hkw Hlen]. apply Nat.eqb_eq in Hlen.
  destruct kw as [|k1 [|k2 [|k3 [|k4 [|k5 kw]]]]]; try discriminate Hlen.
  destruct ws as [|x ws]; [congruence|].
  apply andb_true_iff in Hsp as [Hx Hsp].
  set (t := (x :: ws) ++ (y :: rest) ++ post).
  assert (Hk1 : is_word k1 = true).
  { apply orb_true_iff in Hkw as [H|H];
      [change (txt "FROM") with ("F"%char :: txt "ROM") in H
      |change (txt "JOIN") with ("J"%char :: txt "OIN") in H];
      rewrite lits_match_cons in H; apply andb_true_iff in H as [H _];
      apply keyword_letter_is_word in H; auto. }
  unfold from_join_here.
  change (head ([k1; k2; k3; k4] ++ t)) with (Some k1).
  rewrite Hprev. cbn [is_word_opt]. rewrite Hk1. cbn [xorb].
  rewrite !(lits_match_app true _ [k1; k2; k3; k4] t) by (simpl; lia).
  rewrite Hkw.
  change (drop 4 ([k1; k2; k3; k4] ++ t)) with t.
  replace (length ([k1; k2; k3; k4] ++ t) - length t) with 4
    by (rewrite length_app; simpl; lia).
  change (take 4 ([k1; k2; k3; k4] ++ t)) with [k1; k2; k3; k4].
  unfold t at 1. cbn [app]. unfold after_keyword. rewrite Hx.
  rewrite skip_cls_space, (lstrip_app_space ws _ Hsp).
  cbn [lstrip]. rewrite (ident_start_not_space y Hy), Hy.
  rewrite (skip_cls_app_all ClsWord rest post Hrest).
  rewrite (skip_cls_stop ClsWord post)
    by (destruct post; [reflexivity|exact Hpost]).
  replace (length (y :: rest ++ post) - length post) with (S (length rest))
    by (simpl; rewrite length_app; lia).
  rewrite firstn_cons, take_app_length.
  f_equal. f_equal. unfold t. simpl. rewrite ?length_app. simpl.
  rewrite ?length_app. lia.
Qed.

(** X6. A keyword ([FROM] or [JOIN], any letter case) at the start of the
    text, followed by whitespace and an identifier, is rewritten to the
    keyword as written, one space, the database name, a dot and the
    identifier; the rest of the text is qualified on its own. *)
Theorem qualify_table_names_rewrites (kw ws : str) (y : ascii)
    (rest post db_name : str) :
  is_keyword kw = true ->
  ws <> [] -> all_space ws = true ->
  is_ident_start y = true -> forallb is_word rest = true ->
  is_word_opt (head post) = false ->
  qualify_table_names (kw ++ ws ++ (y :: rest) ++ post) db_name
  = kw ++ txt " " ++ db_name ++ txt "." ++ (y :: rest)
    ++ qualify_table_names post db_name.
Proof.
  intros Hkw Hws Hsp Hy Hrest Hpost.
  pose proof (from_join_here_keyword None kw ws y rest post
                Hkw eq_refl Hws Hsp Hy Hrest Hpost) as Hm.
  rewrite !qualify_always. unfold re_sub.
  pose proof Hkw as Hkw'. apply andb_true_iff in Hkw' as [_ Hlen].
  apply Nat.eqb_eq in Hlen.
  destruct kw as [|k1 kw]; [discriminate Hlen|].
  set (a := kw ++ ws ++ y :: rest).
  assert (Htext : (k1 :: kw) ++ ws ++ (y :: rest) ++ post = k1 :: (a ++ post)).
  { unfold a. rewrite <- !app_assoc. reflexivity. }
  rewrite Htext in *.
  rewrite (sub_from_step_some _ _ _ _ _ _ (length a) [(2, y :: rest); (1, k1 :: kw)]).
  - unfold always_qualify at 1. cbn [group Nat.eqb].
    rewrite sub_from_skip, drop_app_length.
    rewrite (sub_from_nonword _ _ None post Hpost).
    rewrite <- !app_assoc. reflexivity.
  - rewrite match_here_from_join, Hm. reflexivity.
Qed.

Lemma qualify_table_names_rewrites_witness :
  qualify_table_names (txt "join
     Orders_2024 o ON o.id = c.id") (txt "shop")
  = txt "join shop.Orders_2024 o ON o.id = c.id".
Proof.
  apply (qualify_table_names_rewrites (txt "join") (txt "
     ") "O"%char (txt "rders_2024") (txt " o ON o.id = c.id") (txt "shop"));
    try reflexivity.
  discriminate.
Defined.

(** ** More on the query executor *)

(** The guarded block of [query_databricks]. *)
Definition executor_body (E : env) (sql_query : str) (db_name : option str)
  : M (list row * list str) :=
  run (match db_name with
       | Some (c :: d) =>
           call (EvExecute (txt "USE `" ++ (c :: d) ++ txt "`"))
             (fun h => cursor_execute E h (txt "USE `" ++ (c :: d) ++ txt "`"))
       | _ => ret tt
       end);
  run call (EvExecute sql_query) (fun h => cursor_execute E h sql_query);
  do rows <- call EvFetchAll (cursor_fetchall E);
  do columns <- call EvDescription
                  (fun h => match cursor_description E h with
                            | Some names => Val names
                            | None => oraise TypeError
                                        (txt "'NoneType' object is not iterable")
                            end);
  ret (rows, columns).

Lemma executor_body_emits E sql_query db_name :
  emits (fun _ => True) (executor_body E sql_query db_name).
Proof.
  unfold executor_body.
  repeat (first [ apply emits_bind; [|intros ?] | apply emits_ret ]);
    try (destruct db_name as [[|c d]|]; try apply emits_ret);
    apply emits_call; exact I.
Qed.

(** X7. When the connection and the cursor are obtained and closing the
    cursor does not raise, [query_databricks] closes the cursor and then
    the connection on every exit: whatever the statements, the fetch or the
    description do, the calls it makes begin with the two acquisitions and
    end with the two closes. *)
Theorem query_databricks_releases (E : env) (sql_query : str)
    (db_name : option str) (w w' : world) (r : outcome (list row * list str)) :
  (forall h, sql_connect E h = Val tt) ->
  (forall h, connection_cursor E h = Val tt) ->
  (forall h, cursor_close E h = Val tt) ->
  query_databricks E sql_query db_name w = (r, w') ->
  exists evs,
    trace w' = trace w ++ [EvConnect; EvCursor] ++ evs
               ++ [EvCursorClose; EvConnectionClose].
Proof.
  intros Hconnect Hcursor Hclose.
  unfold query_databricks. fold (executor_body E sql_query db_name).
  unfold bind at 1. unfold call at 1. rewrite Hconnect.
  unfold bind at 1. unfold call at 1. rewrite Hcursor.
  unfold try_finally. cbn [trace].
  destruct (executor_body E sql_query db_name _) as [rb w3] eqn:Hbody.
  destruct (executor_body_emits E sql_query db_name _ _ _ Hbody) as (evs & Ht & _).
  cbn [trace] in Ht.
  unfold bind, call. rewrite Hclose.
  destruct (connection_close E _); intros [= _ <-]; exists evs; cbn [trace];
    rewrite Ht, <- !app_assoc; reflexivity.
Qed.

Definition failing_query_env : env :=
  {| requests_post := requests_post (quiet_env [] [] []);
     sql_connect := fun _ => Val tt;
     connection_cursor := fun _ => Val tt;
     cursor_execute := fun _ _ => Exn (boom "TABLE_OR_VIEW_NOT_FOUND");
     cursor_fetchall := fun _ => Val [];
     cursor_description := fun _ => Some [];
     cursor_close := fun _ => Val tt;
     connection_close := fun _ => Val tt;
     sqlparse_parse := split_statements [];
     writable := fun _ => true;
     app_schema_path := 0;
     cwd_schema_path := 0;
     databases_path := 1;
     schema_script := txt "schema.py" |}.

Lemma query_databricks_releases_witness :
  exists evs,
    trace (snd (query_databricks failing_query_env (txt "SELECT 1") None empty_world))
    = [] ++ [EvConnect; EvCursor] ++ evs ++ [EvCursorClose; EvConnectionClose].
Proof.
  apply (query_databricks_releases failing_query_env (txt "SELECT 1") None
           empty_world _
           (fst (query_databricks failing_query_env (txt "SELECT 1") None empty_world)));
    reflexivity.
Defined.

(** X8. [query_databricks] calls nothing but the warehouse.  With a
    non-empty database name the statements it executes are among the [USE]
    directive for that name and the query; with no name, or an empty one,
    the query alone. *)
Theorem query_databricks_statements (E : env) (sql_query : str) :
  (forall db_name,
      emits (fun e => is_warehouse_event e = true /\
                      forall st, e = EvExecute st ->
                                 st = use_statement db_name \/ st = sql_query)
        (query_databricks E sql_query (Some db_name)))
  /\ emits (fun e => is_warehouse_event e = true /\
                     forall st, e = EvExecute st -> st = sql_query)
       (query_databricks E sql_query None)
  /\ emits (fun e => is_warehouse_event e = true /\
                     forall st, e = EvExecute st -> st = sql_query)
       (query_databricks E sql_query (Some [])).
Proof.
  split; [intros db_name; apply query_databricks_emits|].
  split; unfold query_databricks;
    repeat (first [ apply emits_bind; [|intros ?]
                  | apply emits_try_finally
                  | apply emits_ret ]);
    apply emits_call; (split; [reflexivity|]); intros st Hst;
    try discriminate; injection Hst as <-; reflexivity.
Qed.

(** ** More on [generate_sql] and [analyze] *)





(** X10. [analyze] rejects a request before any call is made: without a
    prompt or without a database name (absent or empty) it answers 400
    with the missing-input message, and for a database that is not in the
    cache it answers 400 naming the database; in both cases the world is
    left as it was. *)
Theorem analyze_rejects_before_any_call (E : env) (req : request) (w : world) :
  (truthy_str (req_prompt req) && truthy_str (req_database req) = false ->
   analyze E req w
   = (Val (ErrorResponse 400 (txt "Missing prompt or database")), w))
  /\ (forall db_name,
        truthy_str (req_prompt req) = true ->
        req_database req = Some db_name -> db_name <> [] ->
        schemas w !! KStr db_name = None ->
        analyze E req w
        = (Val (ErrorResponse 400 (txt "Unknown database: " ++ db_name)), w)).
Proof.
  split.
  - intros H. unfold analyze.
    destruct (req_prompt req) as [[|p prompt]|];
      destruct (req_database req) as [[|c db]|]; try reflexivity.
    discriminate H.
  - intros db_name Hp Hd Hne Hs. unfold analyze. rewrite Hd.
    destruct (req_prompt req) as [[|p prompt]|]; try discriminate Hp.
    destruct db_name as [|c db]; [congruence|].
    unfold try_except. rewrite Hs. reflexivity.
Qed.

Lemma analyze_rejects_before_any_call_witness :
  analyze (quiet_env [] [] []) (sample_request "" "sales_db")
    (world_with (txt "sales_db"))
  = (Val (ErrorResponse 400 (txt "Missing prompt or database")),
     world_with (txt "sales_db"))
  /\ analyze (quiet_env [] [] []) (sample_request "count" "hr")
       (world_with (txt "sales_db"))
     = (Val (ErrorResponse 400 (txt "Unknown database: hr")),
        world_with (txt "sales_db")).
Proof.
  split.
  - apply (proj1 (analyze_rejects_before_any_call _ _ _)). reflexivity.
  - apply (proj2 (analyze_rejects_before_any_call (quiet_env [] [] [])
             (sample_request "count" "hr") (world_with (txt "sales_db")))
             (txt "hr")); try reflexivity.
    discriminate.
Defined.

Lemma generate_insight_world E rows names prompt w r w' :
  generate_insight E rows names prompt w = (r, w') ->
  w' = w \/ exists payload, w' = logged w (EvPost payload).
Proof.
  unfold generate_insight, bind, lift, call, raise.
  destruct (format_rows names rows) as [formatted|e]; [|intros [= _ <-]; left; reflexivity].
  destruct (forallb _ formatted); [|intros [= _ <-]; left; reflexivity].
  destruct (requests_post E _ _) as [res|e]; cbn [trace];
    [|intros [= _ <-]; right; eexists; reflexivity].
  destruct (Nat.eqb _ _); intros [= _ <-]; right; eexists; reflexivity.
Qed.

Definition within_budget (before after : list event) : Prop :=
  exists first_post warehouse_calls second_post,
    after = before ++ first_post ++ warehouse_calls ++ second_post
    /\ length first_post <= 1 /\ length second_post <= 1
    /\ Forall (fun e => is_post e = true) first_post
    /\ Forall (fun e => is_warehouse_event e = true) warehouse_calls
    /\ Forall (fun e => is_post e = true) second_post.

Lemma within_budget_intro before (a b c : list event) :
  length a <= 1 -> length c <= 1 ->
  Forall (fun e => is_post e = true) a ->
  Forall (fun e => is_warehouse_event e = true) b ->
  Forall (fun e => is_post e = true) c ->
  within_budget before (((before ++ a) ++ b) ++ c).
Proof.
  intros Ha Hc Fa Fb Fc. exists a, b, c.
  rewrite <- !app_assoc. repeat split; assumption.
Qed.

Lemma post_only (payload : gen_request) :
  Forall (fun e => is_post e = true) [EvPost payload].
Proof. repeat constructor. Qed.

(** X11. An [analyze] request makes at most two calls to the generation
    service, and every call to the warehouse lies between them: what the
    request appends to the trace is at most one post, then warehouse calls
    only, then at most one post. *)
Theorem analyze_call_budget (E : env) (req : request) (w : world) :
  within_budget (trace w) (trace (snd (analyze E req w))).
Proof.
  assert (Hnone : within_budget (trace w) (trace w)).
  { pose proof (within_budget_intro (trace w) [] [] []) as H.
    rewrite !app_nil_r in H. apply H; simpl; try lia; constructor. }
  unfold analyze.
  destruct (req_prompt req) as [[|p prompt']|]; try exact Hnone.
  destruct (req_database req) as [[|c db']|]; try exact Hnone.
  unfold try_except at 1.
  destruct (schemas w !! KStr (c :: db')) as [schema|]; [|exact Hnone].
  set (prompt := p :: prompt'). set (db_name := c :: db').
  set (post := EvPost (sql_payload prompt schema db_name)).
  assert (Hfinal : forall (o : outcome response) (w' : world),
            within_budget (trace w) (trace w') ->
            within_budget (trace w)
              (trace (snd (match o with
                           | Val a => (Val a, w')
                           | Exn e =>
                               if any_exception (exn_class_of e)
                               then ret (ErrorResponse 500 (exn_msg e)) w'
                               else (Exn e, w')
                           end)))).
  { intros [a|e] w' H; [exact H|]. destruct (any_exception _); exact H. }
  match goal with
  | |- within_budget _ (trace (snd (let (o, w') := ?body in _))) =>
      destruct body as [o w'] eqn:Hbody
  end.
  apply Hfinal.
  unfold bind at 1 in Hbody.
  destruct (generate_sql E prompt schema db_name w) as [[sql_query|e] w1] eqn:Hgen;
    apply generate_sql_world in Hgen; fold post in Hgen; subst w1.
  2:{ injection Hbody as _ <-. cbn [trace logged].
      pose proof (within_budget_intro (trace w) [post] [] []) as H.
      rewrite !app_nil_r in H. apply H; simpl; try lia; repeat constructor. }
  unfold bind at 1 in Hbody.
  destruct (query_databricks E sql_query (Some db_name) _) as [[rc|e] w2] eqn:Hq;
    destruct (query_databricks_emits E sql_query db_name _ _ _ Hq) as (wh & Ht & Hwh);
    cbn [trace logged] in Ht;
    assert (Hwh' : Forall (fun e => is_warehouse_event e = true) wh)
      by (eapply Forall_impl; [exact Hwh|intros e0 [He0 _]; exact He0]).
  2:{ injection Hbody as _ <-. rewrite Ht.
      pose proof (within_budget_intro (trace w) [post] wh []) as H.
      rewrite !app_nil_r in H. apply H; simpl; try lia; repeat constructor.
      exact Hwh'. }
  unfold bind at 1 in Hbody.
  destruct (match rc.1 with
            | [] => ret no_data_message
            | _ :: _ => generate_insight E rc.1 rc.2 prompt
            end w2) as [oi w3] eqn:Hin.
  assert (Hw3 : w3 = w2 \/ exists payload, w3 = logged w2 (EvPost payload)).
  { destruct (fst rc); [injection Hin as _ <-; left; reflexivity|].
    eapply generate_insight_world. exact Hin. }
  assert (Hw' : w' = w3).
  { destruct oi as [insight|e]; injection Hbody as _ <-; reflexivity. }
  subst w'. destruct Hw3 as [-> | [payload ->]].
  - rewrite Ht.
    pose proof (within_budget_intro (trace w) [post] wh []) as H.
    rewrite !app_nil_r in H. apply H; simpl; try lia; repeat constructor.
    exact Hwh'.
  - cbn [trace logged]. rewrite Ht.
    apply (within_budget_intro (trace w) [post] wh [EvPost payload]);
      simpl; try lia; repeat constructor. exact Hwh'.
Qed.

(** ** More on [load_schema] *)









(** ** The snapshot written by [schema.py] and the cache *)










(** ** More on [generate_insight] *)

Lemma format_row_error names : forall r i acc e,
  format_row names i r acc = Exn e -> exn_class_of e = IndexError.
Proof.
  induction r as [|c r IH]; intros i acc e; simpl; [discriminate|].
  destruct (names !! i) as [name|]; [apply IH|].
  intros [= <-]. reflexivity.
Qed.

Lemma format_row_too_long names : forall r i acc,
  i <= length names -> length names < i + length r ->
  exists e, format_row names i r acc = Exn e.
Proof.
  induction r as [|c r IH]; intros i acc Hi Hlen; simpl in *; [lia|].
  destruct (names !! i) as [name|] eqn:Hname; [|eexists; reflexivity].
  apply lookup_lt_Some in Hname. apply IH; lia.
Qed.

Lemma format_rows_too_long names rows :
  Exists (fun r => length names < length r) rows ->
  exists e, format_rows names rows = Exn e /\ exn_class_of e = IndexError.
Proof.
  induction 1 as [r rows Hr|r rows Hrows IH]; simpl; unfold obind.
  - destruct (format_row_too_long names r 0 [] ltac:(lia) Hr) as [e He].
    rewrite He. exists e. split; [reflexivity|].
    eapply format_row_error. exact He.
  - destruct (format_row names 0 r []) as [d|e] eqn:Hd.
    + destruct IH as (e & -> & He). exists e. split; [reflexivity|exact He].
    + exists e. split; [reflexivity|]. eapply format_row_error. exact Hd.
Qed.

(** X14. When a row has more cells than there are column names,
    [generate_insight] raises an [IndexError] while it builds the records:
    the generation service is not called and nothing changes. *)
Theorem generate_insight_row_too_long (E : env) (rows : list row)
    (names : list str) (prompt : str) (w : world) :
  Exists (fun r => length names < length r) rows ->
  exists e,
    generate_insight E rows names prompt w = (Exn e, w)
    /\ exn_class_of e = IndexError.
Proof.
  intros Hrows. destruct (format_rows_too_long names rows Hrows) as (e & He & Hc).
  exists e. split; [|exact Hc].
  unfold generate_insight, bind, lift. rewrite He. reflexivity.
Qed.

Lemma generate_insight_row_too_long_witness :
  exists e,
    generate_insight (quiet_env [] [] []) [[CInt 1; CInt 2]] [txt "n"]
      (txt "count") empty_world
    = (Exn e, empty_world)
    /\ exn_class_of e = IndexError.
Proof.
  apply (generate_insight_row_too_long (quiet_env [] [] []) [[CInt 1; CInt 2]]
           [txt "n"] (txt "count") empty_world).
  constructor. simpl. lia.
Defined.
